(** * A set-associative LRU cache simulator: model and verification

    Shallow embedding of [cache_mem.cpp].  The C++ objects are rendered as
    follows.

    - [Address] ([uint64_t]) is a [Z]; [is_address] is its range.  The only
      operations the program applies to addresses are right shifts and a
      bitwise and, which cannot leave the range; the one left shift
      ([1ULL << INDEX_BITS]) and the subtraction that follows it are written
      with their 64-bit wrap-around ([wrap64]).  Results that do not need the
      range are stated for every integer, hence for every address.
    - [std::list<CacheLine>] is a [list CacheLine], front of the list first.
      An iterator is the position it points at; [end()] is the length.
    - [std::vector<Set>] is a list of sets; [operator[]] is unchecked in C++,
      so an out-of-range subscript is a failure of the model ([None]), and
      [accessMemory] returns an [option].
    - The [long long] counters are mathematical integers; [counters_bounded]
      below shows that they stay within the [long long] range for every trace
      of fewer than [2^63] accesses, so no signed overflow is hidden by this.
    - [double] is IEEE binary64, given by the Standard Library's executable
      specification [SpecFloat] at precision 53 and maximal exponent 1024.
    - The members of [CacheSimulator] are private: the states of an engine
      are those that the constructor followed by calls of [accessMemory]
      produces ([reachable]). *)

From Stdlib Require Import ZArith List Lia Bool.
From Stdlib Require Import Floats.SpecFloat.
From stdpp Require Import base option list.

Local Open Scope Z_scope.

(** ** Configuration (compile-time constants) *)

Definition CACHE_SIZE : Z := 32 * 1024.
Definition BLOCK_SIZE : Z := 64.
Definition WAYS : Z := 4.
(* [int] division truncates towards zero. *)
Definition NUM_SETS : Z := Z.quot CACHE_SIZE (BLOCK_SIZE * WAYS).

Definition Address : Type := Z.

Definition is_address (a : Z) : Prop := 0 <= a < 2 ^ 64.

Definition wrap64 (z : Z) : Z := z mod 2 ^ 64.

(** ** [get_log2]

    The [while (n > 1) { n >>= 1; ret++; }] loop.  An [int] has 31 value
    bits, so the loop body runs at most 30 times; [get_log2_loop] takes the
    number of iterations it may perform, and [get_log2_fuel] shows that the
    32 given to it by [get_log2] are never used up. *)

Fixpoint get_log2_loop (fuel : nat) (n ret : Z) : Z :=
  match fuel with
  | O => ret
  | S fuel' =>
      if 1 <? n then get_log2_loop fuel' (Z.shiftr n 1) (ret + 1) else ret
  end.

Definition get_log2 (n : Z) : Z := get_log2_loop 32 n 0.

Definition OFFSET_BITS : Z := get_log2 BLOCK_SIZE.
Definition INDEX_BITS : Z := get_log2 NUM_SETS.

(** ** Cache lines, sets and the simulator state *)

Record CacheLine : Type := mkCacheLine {
  valid : bool;
  tag : Address
}.

(* [CacheLine{}]: the default member initialisers. *)
Definition CacheLine_default : CacheLine := mkCacheLine false 0.

(* [using Set = list<CacheLine>] *)
Abbreviation Set_ := (list CacheLine).

Record CacheSimulator : Type := mkCacheSimulator {
  sets : list Set_;
  accesses : Z;
  hits : Z;
  misses : Z
}.

(* The constructor: [sets.resize(NUM_SETS)] on the empty vector, counters 0. *)
Definition CacheSimulator_new : CacheSimulator :=
  {| sets := replicate (Z.to_nat NUM_SETS) [];
     accesses := 0; hits := 0; misses := 0 |}.

(** ** The list operations used by [accessMemory] *)

(* [std::find_if(begin, end, p)]: the first position whose element satisfies
   [p], or the length ([end()]) when there is none. *)
Fixpoint find_if {A : Type} (p : A -> bool) (l : list A) : nat :=
  match l with
  | [] => O
  | x :: l' => if p x then O else S (find_if p l')
  end.

(* [l.splice(l.begin(), l, it)]: the element at [it] is unlinked and relinked
   in front of the first one; the others keep their relative order. *)
Definition splice_front {A : Type} (l : list A) (it : nat) : list A :=
  match l !! it with
  | Some x => x :: delete it l
  | None => l
  end.

Definition emplace_front {A : Type} (x : A) (l : list A) : list A := x :: l.

Definition pop_back {A : Type} (l : list A) : list A := removelast l.

(** ** Address decoding (lines 63-66 of the source) *)

Definition index_mask : Address := wrap64 (wrap64 (Z.shiftl 1 INDEX_BITS) - 1).

Definition index_of (address : Address) : Address :=
  Z.land (Z.shiftr address OFFSET_BITS) index_mask.

Definition tag_of (address : Address) : Address :=
  Z.shiftr address (OFFSET_BITS + INDEX_BITS).

(* The lambda given to [find_if]. *)
Definition line_matches (t : Address) (line : CacheLine) : bool :=
  valid line && (tag line =? t).

(** ** [accessMemory] *)

Definition accessMemory (sim : CacheSimulator) (address : Address)
  : option CacheSimulator :=
  let accesses' := accesses sim + 1 in
  let index := index_of address in
  let t := tag_of address in
  current_set ← sets sim !! Z.to_nat index;
  let it := find_if (line_matches t) current_set in
  if negb (it =? length current_set)%nat then
    (* HIT *)
    Some {| sets := <[Z.to_nat index := splice_front current_set it]> (sets sim);
            accesses := accesses';
            hits := hits sim + 1;
            misses := misses sim |}
  else
    (* MISS *)
    let inserted := emplace_front (mkCacheLine true t) current_set in
    let evicted :=
      if WAYS <? Z.of_nat (length inserted) then pop_back inserted
      else inserted in
    Some {| sets := <[Z.to_nat index := evicted]> (sets sim);
            accesses := accesses';
            hits := hits sim;
            misses := misses sim + 1 |}.

(** ** [printStats]

    The function only writes to [cout]; the model returns the values it
    writes, in the order it writes them.  The textual formatting
    ([std::fixed], [setprecision(2)]) is not modelled. *)

Definition double : Type := spec_float.

(* binary64: 53 bits of precision, exponents below 1024. *)
Definition prec : Z := 53.
Definition emax : Z := 1024.

(* [static_cast<double>(z)] and the implicit conversion of the divisor:
   the nearest binary64 number, ties to even. *)
Definition double_of_Z (z : Z) : double := binary_normalize prec emax z 0 false.

Definition double_zero : double := S754_zero false.
Definition double_100 : double := double_of_Z 100.

Record Stats : Type := mkStats {
  st_size_kb : Z;
  st_ways : Z;
  st_accesses : Z;
  st_hits : Z;
  st_misses : Z;
  st_hitRate : double
}.

Definition hitRate (sim : CacheSimulator) : double :=
  if 0 <? accesses sim
  then SFmul prec emax
         (SFdiv prec emax (double_of_Z (hits sim)) (double_of_Z (accesses sim)))
         double_100
  else double_zero.

Definition printStats (sim : CacheSimulator) : Stats :=
  {| st_size_kb := Z.quot CACHE_SIZE 1024;
     st_ways := WAYS;
     st_accesses := accesses sim;
     st_hits := hits sim;
     st_misses := misses sim;
     st_hitRate := hitRate sim |}.

(** ** [main]: the trace and the loop over it *)

Definition trace : list Address :=
  [ 0x1000; 0x1004; 0x1008;
    0x2000; 0x2004;
    0x1000;
    0x3000; 0x4000; 0x5000; 0x6000; 0x7000 ].

(* [for (const auto& addr : t) sim.accessMemory(addr);] *)
Fixpoint runTrace (sim : CacheSimulator) (t : list Address)
  : option CacheSimulator :=
  match t with
  | [] => Some sim
  | addr :: rest => sim' ← accessMemory sim addr; runTrace sim' rest
  end.

Definition main : option Stats :=
  printStats <$> runTrace CacheSimulator_new trace.

(** ** Observing hits and misses

    [accessMemory] returns nothing; whether an access was a hit or a miss is
    visible in the counters only. *)

Inductive Outcome : Type := Hit | Miss.

Definition outcome (before after : CacheSimulator) : option Outcome :=
  if (hits after =? hits before + 1) && (misses after =? misses before)
  then Some Hit
  else if (hits after =? hits before) && (misses after =? misses before + 1)
  then Some Miss
  else None.

(* The outcomes of the accesses of a trace, in order. *)
Fixpoint outcomes (sim : CacheSimulator) (t : list Address)
  : option (list Outcome) :=
  match t with
  | [] => Some []
  | addr :: rest =>
      sim' ← accessMemory sim addr;
      o ← outcome sim sim';
      os ← outcomes sim' rest;
      Some (o :: os)
  end.

Definition is_hit (sim : CacheSimulator) (a : Address) (sim' : CacheSimulator)
  : Prop :=
  accessMemory sim a = Some sim' /\
  accesses sim' = accesses sim + 1 /\
  hits sim' = hits sim + 1 /\ misses sim' = misses sim.

Definition is_miss (sim : CacheSimulator) (a : Address) (sim' : CacheSimulator)
  : Prop :=
  accessMemory sim a = Some sim' /\
  accesses sim' = accesses sim + 1 /\
  hits sim' = hits sim /\ misses sim' = misses sim + 1.

(** ** States of the engine and their invariant *)

(* The states an engine can be in: those the constructor and a sequence of
   [accessMemory] calls produce. *)
Definition reachable (sim : CacheSimulator) : Prop :=
  exists t : list Address, runTrace CacheSimulator_new t = Some sim.

Definition set_ok (s : Set_) : Prop :=
  Z.of_nat (length s) <= WAYS /\
  Forall (fun line => valid line = true) s /\
  NoDup (tag <$> s).

Record cache_inv (sim : CacheSimulator) : Prop := mk_cache_inv {
  inv_num_sets : length (sets sim) = Z.to_nat NUM_SETS;
  inv_sets : Forall set_ok (sets sim);
  inv_counters : accesses sim = hits sim + misses sim;
  inv_hits : 0 <= hits sim;
  inv_misses : 0 <= misses sim
}.

(* The state of a fresh engine after the accesses of [t]. *)
Definition state_after (t : list Address) : CacheSimulator :=
  default CacheSimulator_new (runTrace CacheSimulator_new t).

(* The valid line that an access to [a] looks for and inserts. *)
Definition line_of (a : Address) : CacheLine := mkCacheLine true (tag_of a).

(* Every line of the cache is the line of an address of [history] that
   selects the set the line is in. *)
Definition lines_from (history : list Address) (sim : CacheSimulator) : Prop :=
  forall (j : nat) (s : Set_) (x : CacheLine),
    sets sim !! j = Some s -> x ∈ s ->
    exists b, b ∈ history /\ Z.to_nat (index_of b) = j /\ x = line_of b.

(* The line of [a] is in its set, and the lines in front of it (the more
   recently used ones) all have tags of [D]. *)
Definition kept_ahead (a : Address) (D : list Address) (sim : CacheSimulator)
  : Prop :=
  exists pre post : Set_,
    sets sim !! Z.to_nat (index_of a) = Some (pre ++ line_of a :: post) /\
    Forall (fun x => tag x ∈ D) pre.

(* The number of lines in the cache. *)
Definition occupancy (sim : CacheSimulator) : nat :=
  sum_list_with length (sets sim).

(** * Properties *)

(** ** Geometry *)

Lemma NUM_SETS_eq : NUM_SETS = 128.
Proof. reflexivity. Qed.

Lemma get_log2_loop_log2 (fuel : nat) :
  forall n ret : Z,
    1 <= n < 2 ^ Z.of_nat fuel ->
    get_log2_loop fuel n ret = ret + Z.log2 n.
Proof.
  induction fuel as [|fuel IH]; intros n ret Hn.
  - simpl in Hn. lia.
  - cbn [get_log2_loop]. destruct (Z.ltb_spec 1 n) as [Hlt|Hge].
    + rewrite IH.
      * rewrite Z.log2_shiftr by lia.
        assert (1 <= Z.log2 n) by (apply Z.log2_le_pow2; simpl; lia).
        lia.
      * rewrite Z.shiftr_div_pow2 by lia. change (2 ^ 1) with 2.
        rewrite Nat2Z.inj_succ, Z.pow_succ_r in Hn by lia.
        split; [apply Z.div_le_lower_bound; lia|].
        apply Z.div_lt_upper_bound; lia.
    + assert (n = 1) by lia. subst n. simpl. lia.
Qed.

(* On every positive [int], [get_log2] is the integer binary logarithm. *)
Lemma get_log2_spec (n : Z) : 1 <= n < 2 ^ 31 -> get_log2 n = Z.log2 n.
Proof.
  intros Hn. unfold get_log2. rewrite get_log2_loop_log2; [lia|].
  change (2 ^ Z.of_nat 32) with (2 ^ 31 * 2). lia.
Qed.

(* On the other [int]s the loop body is not entered. *)
Lemma get_log2_nonpos (n : Z) : n <= 1 -> get_log2 n = 0.
Proof.
  intros Hn. unfold get_log2. cbn [get_log2_loop].
  destruct (Z.ltb_spec 1 n); [lia | reflexivity].
Qed.

(* The loop leaves by its condition, never because the iteration bound of
   the model is reached: a larger bound gives the same result. *)
Lemma get_log2_fuel (n : Z) (extra : nat) :
  n < 2 ^ 31 -> get_log2_loop (32 + extra) n 0 = get_log2 n.
Proof.
  intros Hn. destruct (Z_le_gt_dec n 1) as [Hle|Hgt].
  - rewrite get_log2_nonpos by exact Hle. cbn [get_log2_loop Nat.add].
    destruct (Z.ltb_spec 1 n); [lia | reflexivity].
  - rewrite get_log2_spec by lia. rewrite get_log2_loop_log2; [lia|].
    split; [lia|]. apply Z.lt_le_trans with (2 ^ 31); [lia|].
    apply Z.pow_le_mono_r; lia.
Qed.

Lemma OFFSET_BITS_eq : OFFSET_BITS = 6.
Proof. reflexivity. Qed.

Lemma INDEX_BITS_eq : INDEX_BITS = 7.
Proof. reflexivity. Qed.

Lemma index_mask_eq : index_mask = Z.ones 7.
Proof. reflexivity. Qed.

Lemma index_of_mod (a : Z) : index_of a = (a / 2 ^ 6) mod 2 ^ 7.
Proof.
  unfold index_of. rewrite index_mask_eq, OFFSET_BITS_eq.
  rewrite Z.land_ones by lia. rewrite Z.shiftr_div_pow2 by lia. reflexivity.
Qed.

Lemma tag_of_div (a : Z) : tag_of a = a / 2 ^ 13.
Proof.
  unfold tag_of. rewrite OFFSET_BITS_eq, INDEX_BITS_eq.
  rewrite Z.shiftr_div_pow2 by lia. reflexivity.
Qed.

Lemma index_of_range (a : Z) : 0 <= index_of a < NUM_SETS.
Proof.
  rewrite index_of_mod, NUM_SETS_eq. change 128 with (2 ^ 7).
  apply Z.mod_pos_bound. lia.
Qed.

(** ** The list operations *)

Section ListOps.
Context {A : Type}.
Implicit Types (p : A -> bool) (l : list A).

Lemma find_if_le p l : (find_if p l <= length l)%nat.
Proof.
  induction l as [|x l IH]; simpl; [lia|]. destruct (p x); lia.
Qed.

(* [find_if] returns [end()] exactly when no element satisfies [p]. *)
Lemma find_if_end p l :
  find_if p l = length l <-> Forall (fun x => p x = false) l.
Proof.
  induction l as [|x l IH]; simpl.
  - split; [constructor | reflexivity].
  - destruct (p x) eqn:Hpx.
    + split; [discriminate|]. intros H. inversion H; congruence.
    + split.
      * intros H. constructor; [exact Hpx|]. apply IH. lia.
      * intros H. inversion H; subst. f_equal. apply IH. assumption.
Qed.

(* Otherwise it returns the position of the first element that does. *)
Lemma find_if_found p l :
  find_if p l <> length l ->
  exists pre x post,
    l = pre ++ x :: post /\ length pre = find_if p l /\
    p x = true /\ Forall (fun y => p y = false) pre.
Proof.
  induction l as [|x l IH]; simpl; [congruence|].
  destruct (p x) eqn:Hpx.
  - intros _. exists [], x, l. repeat split; auto.
  - intros Hne. destruct IH as (pre & y & post & -> & Hlen & Hy & Hpre);
      [lia|].
    exists (x :: pre), y, post. simpl. repeat split; auto.
Qed.

Lemma find_if_first p (pre : list A) (x : A) (post : list A) :
  Forall (fun y => p y = false) pre -> p x = true ->
  find_if p (pre ++ x :: post) = length pre.
Proof.
  intros Hpre Hx. induction Hpre as [|y pre Hy _ IH]; simpl.
  - rewrite Hx. reflexivity.
  - rewrite Hy, IH. reflexivity.
Qed.

Lemma find_if_exists p l :
  (exists x, x ∈ l /\ p x = true) -> find_if p l <> length l.
Proof.
  intros (x & Hin & Hx) Hend. apply find_if_end in Hend.
  rewrite Forall_forall in Hend. apply Hend in Hin. congruence.
Qed.

Lemma splice_front_middle (pre : list A) (x : A) (post : list A) :
  splice_front (pre ++ x :: post) (length pre) = x :: pre ++ post.
Proof.
  unfold splice_front. rewrite list_lookup_middle by reflexivity.
  rewrite delete_middle. reflexivity.
Qed.

Lemma splice_front_Permutation l it : splice_front l it ≡ₚ l.
Proof.
  unfold splice_front. destruct (l !! it) as [x|] eqn:Hit; [|reflexivity].
  symmetry. apply delete_Permutation. exact Hit.
Qed.

(* [pop_back] drops the last element and nothing else. *)
Lemma pop_back_snoc l x : pop_back (l ++ [x]) = l.
Proof. apply removelast_last. Qed.

Lemma pop_back_cons (x : A) (l : list A) : l <> [] -> pop_back (x :: l) = x :: pop_back l.
Proof. intros Hl. unfold pop_back. destruct l; [congruence | reflexivity]. Qed.

Lemma pop_back_length l : length (pop_back l) = Nat.pred (length l).
Proof.
  destruct (decide (l = [])) as [->|Hne]; [reflexivity|].
  destruct (exists_last Hne) as (l' & x & ->).
  rewrite pop_back_snoc, length_app. simpl. lia.
Qed.

Lemma pop_back_Forall (P : A -> Prop) l : Forall P l -> Forall P (pop_back l).
Proof.
  destruct (decide (l = [])) as [->|Hne]; [auto|].
  destruct (exists_last Hne) as (l' & x & ->).
  rewrite pop_back_snoc, Forall_app. tauto.
Qed.

Lemma pop_back_sublist l : pop_back l `sublist_of` l.
Proof.
  destruct (decide (l = [])) as [->|Hne]; [reflexivity|].
  destruct (exists_last Hne) as (l' & x & ->).
  rewrite pop_back_snoc. apply sublist_inserts_r. reflexivity.
Qed.
End ListOps.

(** ** One access *)

Lemma line_matches_true (t : Address) (line : CacheLine) :
  line_matches t line = true <-> line = mkCacheLine true t.
Proof.
  unfold line_matches. destruct line as [v t']. simpl.
  rewrite andb_true_iff, Z.eqb_eq. split.
  - intros [-> ->]. reflexivity.
  - intros [= -> ->]. auto.
Qed.

Lemma line_matches_false_valid (t : Address) (line : CacheLine) :
  valid line = true -> line_matches t line = false -> tag line <> t.
Proof.
  unfold line_matches. intros -> H Heq. simpl in H.
  apply Z.eqb_neq in H. contradiction.
Qed.

(* The hit branch, on any state. *)
Lemma accessMemory_hit (sim : CacheSimulator) (a : Address)
    (pre : Set_) (x : CacheLine) (post : Set_) :
  sets sim !! Z.to_nat (index_of a) = Some (pre ++ x :: post) ->
  Forall (fun y => line_matches (tag_of a) y = false) pre ->
  line_matches (tag_of a) x = true ->
  accessMemory sim a =
    Some {| sets := <[Z.to_nat (index_of a) := x :: pre ++ post]> (sets sim);
            accesses := accesses sim + 1;
            hits := hits sim + 1;
            misses := misses sim |}.
Proof.
  intros Hset Hpre Hx. unfold accessMemory. cbv zeta. rewrite Hset. simpl.
  rewrite (find_if_first _ _ _ _ Hpre Hx), splice_front_middle.
  rewrite length_app. simpl.
  replace (length pre =? length pre + S (length post))%nat with false
    by (symmetry; apply Nat.eqb_neq; lia).
  reflexivity.
Qed.

(* The miss branch, on any state. *)
Lemma accessMemory_miss (sim : CacheSimulator) (a : Address) (s : Set_) :
  sets sim !! Z.to_nat (index_of a) = Some s ->
  Forall (fun y => line_matches (tag_of a) y = false) s ->
  accessMemory sim a =
    Some {| sets := <[Z.to_nat (index_of a) :=
                       if WAYS <? Z.of_nat (S (length s))
                       then pop_back (mkCacheLine true (tag_of a) :: s)
                       else mkCacheLine true (tag_of a) :: s]> (sets sim);
            accesses := accesses sim + 1;
            hits := hits sim;
            misses := misses sim + 1 |}.
Proof.
  intros Hset Hs. unfold accessMemory. cbv zeta. rewrite Hset. simpl.
  apply find_if_end in Hs. rewrite Hs, Nat.eqb_refl. reflexivity.
Qed.

(* A set either holds the line looked for, at a first position, or does not
   hold it at all. *)
Lemma set_hit_or_miss (t : Address) (s : Set_) :
  (exists pre post,
      s = pre ++ mkCacheLine true t :: post /\
      Forall (fun y => line_matches t y = false) pre) \/
  Forall (fun y => line_matches t y = false) s.
Proof.
  destruct (decide (find_if (line_matches t) s = length s)) as [Hend|Hne].
  - right. apply find_if_end. exact Hend.
  - left. destruct (find_if_found _ _ Hne) as (pre & x & post & -> & _ & Hx & Hpre).
    apply line_matches_true in Hx. subst x. eauto.
Qed.

(* The subscript is in bounds whenever the vector has [NUM_SETS] elements. *)
Lemma sets_lookup (sim : CacheSimulator) (a : Address) :
  length (sets sim) = Z.to_nat NUM_SETS ->
  exists s, sets sim !! Z.to_nat (index_of a) = Some s.
Proof.
  intros Hlen. apply lookup_lt_is_Some_2. rewrite Hlen.
  pose proof (index_of_range a). lia.
Qed.

Lemma accessMemory_total (sim : CacheSimulator) (a : Address) :
  length (sets sim) = Z.to_nat NUM_SETS ->
  exists sim', accessMemory sim a = Some sim'.
Proof.
  intros Hlen. destruct (sets_lookup sim a Hlen) as [s Hs].
  destruct (set_hit_or_miss (tag_of a) s) as [(pre & post & -> & Hpre)|Hmiss].
  - eexists. eapply accessMemory_hit; eauto. apply line_matches_true. reflexivity.
  - eexists. eapply accessMemory_miss; eauto.
Qed.

(** ** The invariant *)

Lemma set_ok_hit (t : Address) (pre post : Set_) :
  set_ok (pre ++ mkCacheLine true t :: post) ->
  set_ok (mkCacheLine true t :: pre ++ post).
Proof.
  assert (Hperm : mkCacheLine true t :: pre ++ post ≡ₚ
                  pre ++ mkCacheLine true t :: post)
    by apply Permutation_middle.
  unfold set_ok. rewrite Hperm. auto.
Qed.

Lemma set_ok_miss (t : Address) (s : Set_) :
  set_ok s ->
  Forall (fun y => line_matches t y = false) s ->
  set_ok (if WAYS <? Z.of_nat (S (length s))
          then pop_back (mkCacheLine true t :: s)
          else mkCacheLine true t :: s).
Proof.
  intros (Hlen & Hvalid & Hnodup) Hmiss.
  assert (Hfresh : t ∉ tag <$> s).
  { intros Hin. apply list_elem_of_fmap in Hin as (y & -> & Hy).
    rewrite Forall_forall in Hvalid, Hmiss.
    eapply line_matches_false_valid; eauto. }
  assert (Hins : Forall (fun line => valid line = true) (mkCacheLine true t :: s)
                 /\ NoDup (tag <$> mkCacheLine true t :: s)).
  { split; [constructor; auto|]. rewrite fmap_cons. constructor; auto. }
  destruct Hins as [Hv Hn].
  destruct (Z.ltb_spec WAYS (Z.of_nat (S (length s)))) as [Hfull|Hroom].
  - pose proof (pop_back_sublist (mkCacheLine true t :: s)) as Hsub.
    split; [|split].
    + rewrite pop_back_length. simpl. lia.
    + apply pop_back_Forall. exact Hv.
    + eapply sublist_NoDup; [exact Hn|]. apply fmap_sublist. exact Hsub.
  - split; [|split]; auto.
Qed.

Lemma cache_inv_new : cache_inv CacheSimulator_new.
Proof.
  constructor; [ | | reflexivity | reflexivity | reflexivity].
  - apply length_replicate.
  - apply Forall_replicate. split; [|split].
    + unfold WAYS. simpl. lia.
    + constructor.
    + constructor.
Qed.

Lemma cache_inv_step (sim sim' : CacheSimulator) (a : Address) :
  cache_inv sim -> accessMemory sim a = Some sim' -> cache_inv sim'.
Proof.
  intros [Hlen Hsets Hcnt Hh Hm] Hstep.
  destruct (sets_lookup sim a Hlen) as [s Hs].
  assert (Hok : set_ok s).
  { rewrite Forall_lookup in Hsets. eapply Hsets; eauto. }
  destruct (set_hit_or_miss (tag_of a) s) as [(pre & post & -> & Hpre)|Hmiss].
  - erewrite accessMemory_hit in Hstep; eauto;
      [|apply line_matches_true; reflexivity].
    injection Hstep as <-. constructor; simpl; try lia.
    + rewrite length_insert. exact Hlen.
    + apply Forall_insert; [exact Hsets|]. apply set_ok_hit. exact Hok.
  - erewrite accessMemory_miss in Hstep; eauto.
    injection Hstep as <-. constructor; simpl; try lia.
    + rewrite length_insert. exact Hlen.
    + apply Forall_insert; [exact Hsets|]. apply set_ok_miss; assumption.
Qed.

Lemma runTrace_app (sim : CacheSimulator) (t1 t2 : list Address) :
  runTrace sim (t1 ++ t2) = runTrace sim t1 ≫= fun sim' => runTrace sim' t2.
Proof.
  revert sim. induction t1 as [|a t1 IH]; intros sim; simpl; [reflexivity|].
  destruct (accessMemory sim a) as [sim'|]; simpl; [apply IH | reflexivity].
Qed.

Lemma runTrace_inv (t : list Address) :
  forall sim, cache_inv sim ->
    exists sim', runTrace sim t = Some sim' /\ cache_inv sim' /\
                 accesses sim' = accesses sim + Z.of_nat (length t).
Proof.
  induction t as [|a t IH]; intros sim Hinv; simpl.
  - exists sim. split; [reflexivity | split; [exact Hinv | simpl; lia]].
  - destruct (accessMemory_total sim a (inv_num_sets _ Hinv)) as [sim1 Hstep].
    rewrite Hstep. simpl.
    pose proof (cache_inv_step _ _ _ Hinv Hstep) as Hinv1.
    destruct (IH sim1 Hinv1) as (sim' & Hrun & Hinv' & Hacc).
    exists sim'. split; [exact Hrun | split; [exact Hinv'|]].
    assert (accesses sim1 = accesses sim + 1); [|lia].
    unfold accessMemory in Hstep. cbv zeta in Hstep.
    destruct (sets sim !! Z.to_nat (index_of a)); simpl in Hstep; [|discriminate].
    destruct (negb _); injection Hstep as <-; reflexivity.
Qed.

Lemma reachable_inv (sim : CacheSimulator) : reachable sim -> cache_inv sim.
Proof.
  intros [t Hrun].
  destruct (runTrace_inv t _ cache_inv_new) as (sim' & Hrun' & Hinv & _).
  congruence.
Qed.

Lemma reachable_step (sim sim' : CacheSimulator) (a : Address) :
  reachable sim -> accessMemory sim a = Some sim' -> reachable sim'.
Proof.
  intros [t Hrun] Hstep. exists (t ++ [a]).
  rewrite runTrace_app, Hrun. simpl. rewrite Hstep. reflexivity.
Qed.

(* No counter leaves the range of [long long] on a trace of fewer than
   [2^63] accesses. *)
Lemma counters_bounded (t : list Address) (sim : CacheSimulator) :
  runTrace CacheSimulator_new t = Some sim ->
  Z.of_nat (length t) < 2 ^ 63 ->
  0 <= hits sim <= accesses sim /\ 0 <= misses sim <= accesses sim /\
  accesses sim = Z.of_nat (length t) /\ accesses sim < 2 ^ 63.
Proof.
  intros Hrun Hlen.
  destruct (runTrace_inv t _ cache_inv_new) as (sim' & Hrun' & Hinv & Hacc).
  assert (sim' = sim) by congruence. subst sim'.
  destruct Hinv as [_ _ Hcnt Hh Hm]. simpl in Hacc. lia.
Qed.

Lemma accessMemory_counters (sim sim' : CacheSimulator) (a : Address) :
  accessMemory sim a = Some sim' -> is_hit sim a sim' \/ is_miss sim a sim'.
Proof.
  intros Hstep. unfold is_hit, is_miss. rewrite Hstep.
  unfold accessMemory in Hstep. cbv zeta in Hstep.
  destruct (sets sim !! Z.to_nat (index_of a)); simpl in Hstep; [|discriminate].
  destruct (negb _); injection Hstep as <-; simpl; auto.
Qed.

Lemma sets_after_insert (l : list Set_) (i : nat) (s s' : Set_) :
  l !! i = Some s ->
  <[i := s']> l !! i = Some s' /\
  length (<[i := s']> l) = length l /\
  forall j, j <> i -> <[i := s']> l !! j = l !! j.
Proof.
  intros Hs. apply lookup_lt_Some in Hs. split; [|split].
  - apply list_lookup_insert_eq. exact Hs.
  - apply length_insert.
  - intros j Hj. apply list_lookup_insert_ne. congruence.
Qed.

(** ** Hits and misses as steps *)

Lemma line_matches_line_of (a b : Address) :
  line_matches (tag_of a) (line_of b) = (tag_of b =? tag_of a).
Proof. reflexivity. Qed.

(* A hit: the line found moves to the front of its set. *)
Lemma step_hit (sim : CacheSimulator) (a : Address)
    (pre : Set_) (x : CacheLine) (post : Set_) :
  sets sim !! Z.to_nat (index_of a) = Some (pre ++ x :: post) ->
  Forall (fun y => line_matches (tag_of a) y = false) pre ->
  line_matches (tag_of a) x = true ->
  exists sim',
    is_hit sim a sim' /\
    sets sim' !! Z.to_nat (index_of a) = Some (x :: pre ++ post).
Proof.
  intros Hs Hpre Hx. eexists. split.
  - split; [apply accessMemory_hit; eassumption|]. simpl. auto.
  - simpl. eapply sets_after_insert. exact Hs.
Qed.

(* A miss: the new line is put in front and the set cut back to [WAYS]. *)
Lemma step_miss (sim : CacheSimulator) (a : Address) (s : Set_) :
  sets sim !! Z.to_nat (index_of a) = Some s ->
  Forall (fun y => line_matches (tag_of a) y = false) s ->
  exists sim',
    is_miss sim a sim' /\
    sets sim' !! Z.to_nat (index_of a) =
      Some (if WAYS <? Z.of_nat (S (length s))
            then pop_back (line_of a :: s) else line_of a :: s).
Proof.
  intros Hs Hmiss. eexists. split.
  - split; [apply accessMemory_miss; eassumption|]. simpl. auto.
  - simpl. eapply sets_after_insert. exact Hs.
Qed.

(* What [outcome] reads off the counters is the branch that was taken. *)
Lemma outcome_hit (sim sim' : CacheSimulator) (a : Address) :
  is_hit sim a sim' -> outcome sim sim' = Some Hit.
Proof.
  intros (_ & _ & Hh & Hm). unfold outcome.
  rewrite Hh, Hm, !Z.eqb_refl. reflexivity.
Qed.

Lemma outcome_miss (sim sim' : CacheSimulator) (a : Address) :
  is_miss sim a sim' -> outcome sim sim' = Some Miss.
Proof.
  intros (_ & _ & Hh & Hm). unfold outcome.
  rewrite Hh, Hm, !Z.eqb_refl.
  replace (hits sim =? hits sim + 1) with false
    by (symmetry; apply Z.eqb_neq; lia).
  reflexivity.
Qed.

Lemma outcomes_hit (sim sim' : CacheSimulator) (a : Address) (rest : list Address) :
  is_hit sim a sim' ->
  outcomes sim (a :: rest) = cons Hit <$> outcomes sim' rest.
Proof.
  intros Hhit. pose proof (outcome_hit _ _ _ Hhit) as Ho.
  destruct Hhit as (Hstep & _). simpl. rewrite Hstep. simpl. rewrite Ho. simpl.
  destruct (outcomes sim' rest); reflexivity.
Qed.

Lemma outcomes_miss (sim sim' : CacheSimulator) (a : Address) (rest : list Address) :
  is_miss sim a sim' ->
  outcomes sim (a :: rest) = cons Miss <$> outcomes sim' rest.
Proof.
  intros Hmiss. pose proof (outcome_miss _ _ _ Hmiss) as Ho.
  destruct Hmiss as (Hstep & _). simpl. rewrite Hstep. simpl. rewrite Ho. simpl.
  destruct (outcomes sim' rest); reflexivity.
Qed.

(* Side conditions on explicit sets: no line of the list, or the given line,
   matches the tag looked for.  The disequalities of tags are hypotheses of
   the form [(t =? t') = false]. *)
Ltac no_match :=
  repeat constructor; rewrite line_matches_line_of;
  solve [assumption | rewrite Z.eqb_sym; assumption].
Ltac the_match := rewrite line_matches_line_of; apply Z.eqb_refl.

(** ** Binary64 facts for [printStats] *)

Section RoundingFacts.
Variables p_ e_ : Z.

Lemma shr_1_nonneg (mrs : shr_record) :
  0 <= shr_m mrs -> 0 <= shr_m (shr_1 mrs).
Proof.
  destruct mrs as [m r s]. simpl.
  destruct m as [|[q|q|]|q]; simpl; lia.
Qed.

Lemma iter_pos_nonneg (n : positive) :
  forall mrs, 0 <= shr_m mrs -> 0 <= shr_m (SpecFloat.iter_pos shr_1 n mrs).
Proof.
  induction n as [n IH|n IH|]; intros mrs Hm; simpl.
  - apply IH, IH, shr_1_nonneg, Hm.
  - apply IH, IH, Hm.
  - apply shr_1_nonneg, Hm.
Qed.

Lemma shr_fexp_nonneg (m e : Z) (l : location) :
  0 <= m -> 0 <= shr_m (fst (shr_fexp p_ e_ m e l)).
Proof.
  intros Hm. unfold shr_fexp, shr.
  assert (H0 : 0 <= shr_m (shr_record_of_loc m l))
    by (destruct l as [|[]]; exact Hm).
  destruct (fexp p_ e_ (Zdigits2 m + e) - e); simpl;
    [exact H0 | apply iter_pos_nonneg, H0 | exact H0].
Qed.

Lemma round_nearest_even_nonneg (m : Z) (l : location) :
  0 <= m -> 0 <= round_nearest_even m l.
Proof.
  intros Hm. destruct l as [|[]]; simpl; try lia.
  destruct (Z.even m); lia.
Qed.

(* Rounding a non-negative mantissa never produces a NaN. *)
Lemma binary_round_aux_not_nan (s : bool) (m e : Z) (l : location) :
  0 <= m -> binary_round_aux p_ e_ s m e l <> S754_nan.
Proof.
  intros Hm. unfold binary_round_aux.
  pose proof (shr_fexp_nonneg m e l Hm) as H1.
  destruct (shr_fexp p_ e_ m e l) as [mrs' e'] eqn:E1. simpl in H1.
  pose proof (shr_fexp_nonneg _ e' loc_Exact
                (round_nearest_even_nonneg _ (loc_of_shr_record mrs') H1)) as H2.
  destruct (shr_fexp p_ e_ (round_nearest_even (shr_m mrs') (loc_of_shr_record mrs'))
              e' loc_Exact) as [mrs'' e''] eqn:E2.
  simpl in H2. destruct (shr_m mrs'') as [|q|q]; [discriminate | | lia].
  destruct (e'' <=? e_ - p_); discriminate.
Qed.

(* A mantissa that is already in canonical position is kept as it is. *)
Lemma binary_round_aux_canonical (s : bool) (m : positive) (e : Z) :
  fexp p_ e_ (Zpos (digits2_pos m) + e) = e -> e <= e_ - p_ ->
  binary_round_aux p_ e_ s (Zpos m) e loc_Exact = S754_finite s m e.
Proof.
  intros Hcan Hmax. unfold binary_round_aux, shr_fexp. simpl Zdigits2.
  rewrite Hcan, Z.sub_diag. simpl. rewrite Hcan, Z.sub_diag. simpl.
  destruct (Z.leb_spec e (e_ - p_)); [reflexivity | lia].
Qed.
End RoundingFacts.

Lemma digits2_pos_lower (q : positive) :
  2 ^ (Zpos (digits2_pos q) - 1) <= Zpos q.
Proof.
  induction q as [q IH|q IH|]; simpl digits2_pos;
    rewrite ?Pos2Z.inj_succ; [| |simpl; lia].
  - replace (Z.succ (Zpos (digits2_pos q)) - 1)
      with (Z.succ (Zpos (digits2_pos q) - 1)) by lia.
    rewrite Z.pow_succ_r by lia. lia.
  - replace (Z.succ (Zpos (digits2_pos q)) - 1)
      with (Z.succ (Zpos (digits2_pos q) - 1)) by lia.
    rewrite Z.pow_succ_r by lia. lia.
Qed.

Lemma digits2_pos_iter (q k : positive) :
  digits2_pos (Pos.iter xO q k) = (digits2_pos q + k)%positive.
Proof.
  induction k as [|k IH] using Pos.peano_ind.
  - simpl. lia.
  - rewrite Pos.iter_succ. simpl. rewrite IH. lia.
Qed.

Lemma double_of_Z_not_nan (z : Z) : double_of_Z z <> S754_nan.
Proof.
  unfold double_of_Z, binary_normalize, binary_round.
  destruct z as [|q|q]; [discriminate| |];
    destruct (shl_align _ _ _) as [mz ez];
    apply binary_round_aux_not_nan; lia.
Qed.

(* Below [2^53] the conversion of a positive integer is a finite positive
   number. *)
Lemma double_of_Z_finite (z : Z) :
  0 < z < 2 ^ 53 -> exists m e, double_of_Z z = S754_finite false m e.
Proof.
  intros [Hpos Hlt]. destruct z as [|q|q]; try lia.
  pose proof (digits2_pos_lower q) as Hd.
  assert (Hd53 : Zpos (digits2_pos q) <= 53).
  { destruct (Z_le_gt_dec (Zpos (digits2_pos q)) 53) as [|Hgt]; [assumption|].
    assert (2 ^ 53 <= 2 ^ (Zpos (digits2_pos q) - 1))
      by (apply Z.pow_le_mono_r; lia).
    lia. }
  unfold double_of_Z, binary_normalize, binary_round, shl_align.
  assert (Hfexp : fexp prec emax (Zpos (digits2_pos q) + 0)
                  = Zpos (digits2_pos q) - 53).
  { unfold fexp, emin, prec, emax. lia. }
  rewrite Hfexp.
  destruct (Zpos (digits2_pos q) - 53 - 0) as [|k|k] eqn:Hk; try lia.
  - eexists _, _. apply binary_round_aux_canonical.
    + unfold fexp, emin, prec, emax. lia.
    + unfold prec, emax. lia.
  - eexists _, _. apply binary_round_aux_canonical.
    + rewrite digits2_pos_iter. unfold fexp, emin, prec, emax. lia.
    + unfold prec, emax. lia.
Qed.

Lemma SFdiv_core_nonneg (mx my : positive) (ex ey : Z) :
  0 <= fst (fst (SFdiv_core_binary prec emax (Zpos mx) ex (Zpos my) ey)).
Proof.
  unfold SFdiv_core_binary. cbv zeta.
  match goal with
  | |- context [Z.div_eucl ?a ?b] =>
      assert (Ha : 0 <= a); [|pose proof (Z.div_pos a b Ha ltac:(lia)) as Hq;
                               unfold Z.div in Hq;
                               destruct (Z.div_eucl a b) as [q r]; exact Hq]
  end.
  destruct (ex - ey - _) as [|k|k]; [lia | apply Z.shiftl_nonneg; lia | lia].
Qed.

(* A quotient by a finite number, and a product with one, is a NaN only if
   the other operand is. *)
Lemma SFdiv_finite_not_nan (x : double) (s : bool) (m : positive) (e : Z) :
  x <> S754_nan -> SFdiv prec emax x (S754_finite s m e) <> S754_nan.
Proof.
  intros Hx. destruct x as [sx|sx| |sx mx ex]; simpl; try discriminate;
    [contradiction|].
  pose proof (SFdiv_core_nonneg mx m ex e) as Hq.
  destruct (SFdiv_core_binary prec emax (Zpos mx) ex (Zpos m) e) as [[mz ez] lz].
  apply binary_round_aux_not_nan. exact Hq.
Qed.

Lemma SFmul_finite_not_nan (x : double) (s : bool) (m : positive) (e : Z) :
  x <> S754_nan -> SFmul prec emax x (S754_finite s m e) <> S754_nan.
Proof.
  intros Hx. destruct x as [sx|sx| |sx mx ex]; simpl; try discriminate;
    [contradiction|].
  apply binary_round_aux_not_nan. lia.
Qed.

Lemma double_100_finite : exists m e, double_100 = S754_finite false m e.
Proof. eexists _, _. vm_compute. reflexivity. Qed.

(* The quotient of a finite number by itself is 1. *)
Lemma SFdiv_self (s : bool) (m : positive) (e : Z) :
  SFdiv prec emax (S754_finite s m e) (S754_finite s m e) = double_of_Z 1.
Proof.
  unfold SFdiv, SFdiv_core_binary. cbv zeta.
  rewrite !Z.sub_diag. change (fexp prec emax 0) with (-53).
  change (Z.min (-53) 0) with (-53). change (0 - -53) with 53.
  rewrite Z.shiftl_mul_pow2 by lia.
  assert (Hq : Zpos m * 2 ^ 53 / Zpos m = 2 ^ 53)
    by (rewrite Z.mul_comm; apply Z.div_mul; lia).
  assert (Hr : (Zpos m * 2 ^ 53) mod Zpos m = 0)
    by (rewrite Z.mul_comm; apply Z.mod_mul; lia).
  unfold Z.div in Hq. unfold Z.modulo in Hr.
  destruct (Z.div_eucl (Zpos m * 2 ^ 53) (Zpos m)) as [q r]. subst q r.
  assert (Hloc : new_location (Zpos m) 0 = loc_Exact).
  { unfold new_location. destruct (Z.even (Zpos m)); reflexivity. }
  rewrite Hloc. destruct s; vm_compute; reflexivity.
Qed.

Lemma hitRate_not_nan (sim : CacheSimulator) :
  accesses sim < 2 ^ 53 -> hitRate sim <> S754_nan.
Proof.
  intros Hlt. unfold hitRate.
  destruct (Z.ltb_spec 0 (accesses sim)) as [Hpos|_]; [|discriminate].
  destruct (double_of_Z_finite (accesses sim)) as (m & e & ->); [lia|].
  destruct double_100_finite as (m' & e' & ->).
  apply SFmul_finite_not_nan, SFdiv_finite_not_nan, double_of_Z_not_nan.
Qed.

Lemma hitRate_no_hits (sim : CacheSimulator) :
  0 < accesses sim < 2 ^ 53 -> hits sim = 0 -> hitRate sim = S754_zero false.
Proof.
  intros [Hpos Hlt] Hh. unfold hitRate.
  destruct (Z.ltb_spec 0 (accesses sim)); [|lia].
  destruct (double_of_Z_finite (accesses sim)) as (m & e & ->); [lia|].
  rewrite Hh. reflexivity.
Qed.

Lemma hitRate_all_hits (sim : CacheSimulator) :
  0 < accesses sim < 2 ^ 53 -> hits sim = accesses sim ->
  hitRate sim = double_of_Z 100.
Proof.
  intros [Hpos Hlt] Hh. unfold hitRate.
  destruct (Z.ltb_spec 0 (accesses sim)); [|lia].
  rewrite Hh.
  destruct (double_of_Z_finite (accesses sim)) as (m & e & ->); [lia|].
  rewrite SFdiv_self. vm_compute. reflexivity.
Qed.

(** * The claims *)

(** C1: for every sequence of accesses on a freshly constructed engine, after
    every call (that is, after every prefix of the sequence) the run has
    produced a state in which [accesses = hits + misses]; and one more access
    from there succeeds, adds one to [accesses] and adds one to exactly one of
    [hits] and [misses]. *)
Theorem counter_equation (t : list Address) (n : nat) :
  exists sim,
    runTrace CacheSimulator_new (take n t) = Some sim /\
    accesses sim = hits sim + misses sim /\
    forall a : Address,
      exists sim',
        accessMemory sim a = Some sim' /\
        accesses sim' = accesses sim + 1 /\
        (hits sim' = hits sim + 1 /\ misses sim' = misses sim \/
         hits sim' = hits sim /\ misses sim' = misses sim + 1) /\
        accesses sim' = hits sim' + misses sim'.
Proof.
  destruct (runTrace_inv (take n t) _ cache_inv_new) as (sim & Hrun & Hinv & _).
  exists sim. split; [exact Hrun|]. split; [apply Hinv|].
  intros a. destruct (accessMemory_total sim a (inv_num_sets _ Hinv)) as [sim' Hstep].
  exists sim'. split; [exact Hstep|].
  pose proof (inv_counters _ Hinv) as Hcnt.
  destruct (accessMemory_counters _ _ _ Hstep) as [(_ & Ha & Hh & Hm)|(_ & Ha & Hh & Hm)];
    (split; [exact Ha|]; split; [auto | lia]).
Qed.

(** C2: for every sequence of accesses on a freshly constructed engine, after
    every call each of the [NUM_SETS] sets holds at most [WAYS = 4] lines, all
    of them valid, and no two lines of one set have the same tag. *)
Theorem sets_bounded_nodup (t : list Address) (n : nat) :
  exists sim,
    runTrace CacheSimulator_new (take n t) = Some sim /\
    WAYS = 4 /\
    length (sets sim) = Z.to_nat NUM_SETS /\
    Forall (fun s : Set_ =>
              Z.of_nat (length s) <= WAYS /\
              Forall (fun line => valid line = true) s /\
              NoDup (tag <$> s)) (sets sim).
Proof.
  destruct (runTrace_inv (take n t) _ cache_inv_new) as (sim & Hrun & Hinv & _).
  exists sim. split; [exact Hrun|]. split; [reflexivity|].
  split; [apply Hinv|]. exact (inv_sets _ Hinv).
Qed.

(** C3: the bit widths are the binary logarithms of the block size and of the
    number of sets, 6 and 7; for every 64-bit unsigned address the index is
    [(address >> 6) & ((1 << 7) - 1)] and the tag is [address >> (6 + 7)]; the
    index lies in [[0, NUM_SETS)], the tag is again a 64-bit value, and tag,
    index and the low six bits put the address together again. *)
Theorem address_decomposition (address : Address) :
  is_address address ->
  OFFSET_BITS = Z.log2 BLOCK_SIZE /\ OFFSET_BITS = 6 /\
  INDEX_BITS = Z.log2 NUM_SETS /\ INDEX_BITS = 7 /\
  index_of address = Z.land (Z.shiftr address 6) (Z.shiftl 1 7 - 1) /\
  tag_of address = Z.shiftr address (6 + 7) /\
  0 <= index_of address < NUM_SETS /\
  is_address (tag_of address) /\
  address = Z.shiftl (tag_of address) (6 + 7) + Z.shiftl (index_of address) 6
            + Z.land address (Z.shiftl 1 6 - 1).
Proof.
  intros [Hlo Hhi].
  split; [reflexivity|]. split; [reflexivity|].
  split; [reflexivity|]. split; [reflexivity|].
  split; [reflexivity|]. split; [reflexivity|].
  split; [apply index_of_range|]. split.
  - rewrite tag_of_div. split.
    + apply Z.div_pos; lia.
    + apply Z.div_lt_upper_bound; lia.
  - rewrite index_of_mod, tag_of_div.
    change (Z.shiftl 1 6 - 1) with (Z.ones 6).
    rewrite Z.land_ones, !Z.shiftl_mul_pow2 by lia.
    assert (H0 : address / 2 ^ 13 = address / 2 ^ 6 / 2 ^ 7)
      by (rewrite Z.div_div by lia; reflexivity).
    rewrite H0.
    pose proof (Z.div_mod address (2 ^ 6) ltac:(lia)) as H1.
    pose proof (Z.div_mod (address / 2 ^ 6) (2 ^ 7) ltac:(lia)) as H2.
    lia.
Qed.

Lemma address_decomposition_witness :
  is_address 0x12345 /\ index_of 0x12345 = 13 /\ tag_of 0x12345 = 9.
Proof.
  assert (H : is_address 0x12345) by (unfold is_address; lia).
  split; [exact H|].
  destruct (address_decomposition 0x12345 H) as (_ & _ & _ & _ & -> & -> & _).
  split; reflexivity.
Defined.

(** C4: the hit path.  In any state, if the set selected by the index of the
    address holds a valid line with the tag of the address, the access
    succeeds, adds one to [accesses] and to [hits] and leaves [misses] alone.
    The line found is the first such line of the set: the set was
    [pre ++ line :: post] with no match in [pre], and it becomes
    [line :: pre ++ post], the line being still [{valid: true, tag}] and the
    other lines keeping their content and their relative order.  The number
    of sets and every other set are unchanged. *)
Theorem hit_path (sim : CacheSimulator) (address : Address) (s : Set_) :
  sets sim !! Z.to_nat (index_of address) = Some s ->
  (exists line, line ∈ s /\ valid line = true /\ tag line = tag_of address) ->
  exists (sim' : CacheSimulator) (pre post : Set_),
    accessMemory sim address = Some sim' /\
    accesses sim' = accesses sim + 1 /\
    hits sim' = hits sim + 1 /\
    misses sim' = misses sim /\
    s = pre ++ mkCacheLine true (tag_of address) :: post /\
    Forall (fun y => ~ (valid y = true /\ tag y = tag_of address)) pre /\
    sets sim' !! Z.to_nat (index_of address) =
      Some (mkCacheLine true (tag_of address) :: pre ++ post) /\
    length (sets sim') = length (sets sim) /\
    forall j, j <> Z.to_nat (index_of address) -> sets sim' !! j = sets sim !! j.
Proof.
  intros Hs (line & Hin & Hv & Ht).
  destruct (set_hit_or_miss (tag_of address) s) as [(pre & post & -> & Hpre)|Hmiss].
  - pose proof (accessMemory_hit sim address pre _ post Hs Hpre
                  (proj2 (line_matches_true _ _) eq_refl)) as Hstep.
    destruct (sets_after_insert (sets sim) _ _
                (mkCacheLine true (tag_of address) :: pre ++ post) Hs)
      as (Hnew & Hlen & Hother).
    eexists _, pre, post. split; [exact Hstep|]. simpl.
    repeat (split; [reflexivity|]).
    split; [|split; [exact Hnew | split; [exact Hlen | exact Hother]]].
    eapply Forall_impl; [exact Hpre|]. intros [v t'] Hy [Hv' Ht'].
    simpl in *. subst. unfold line_matches in Hy. simpl in Hy.
    rewrite Z.eqb_refl in Hy. discriminate.
  - rewrite Forall_forall in Hmiss. specialize (Hmiss line Hin).
    destruct line as [v t']. simpl in *. subst.
    unfold line_matches in Hmiss. simpl in Hmiss.
    rewrite Z.eqb_refl in Hmiss. discriminate.
Qed.

Lemma hit_path_witness :
  exists sim',
    accessMemory (state_after [0x0; 0x2000; 0x4000]) 0x4 = Some sim' /\
    hits sim' = 1 /\ misses sim' = 3.
Proof.
  destruct (hit_path (state_after [0x0; 0x2000; 0x4000]) 0x4
              [line_of 0x4000; line_of 0x2000; line_of 0x0])
    as (sim' & pre & post & Hstep & _ & Hh & Hm & _).
  - vm_compute. reflexivity.
  - exists (line_of 0x0). split; [|split; reflexivity].
    apply list_elem_of_lookup. exists 2%nat. reflexivity.
  - exists sim'. split; [exact Hstep|]. rewrite Hh, Hm. split; reflexivity.
Defined.

(** C5: the miss path.  In any state of the engine, if the set selected by
    the index of the address holds no valid line with the tag of the address,
    the access succeeds, adds one to [accesses] and to [misses] and leaves
    [hits] alone.  The line [{valid: true, tag}] is put in front of the set;
    when that makes the set larger than [WAYS], exactly the line at the back
    is removed.  The set ends with at most [WAYS] lines; the number of sets
    and every other set are unchanged. *)
Theorem miss_path (sim : CacheSimulator) (address : Address) (s : Set_) :
  reachable sim ->
  sets sim !! Z.to_nat (index_of address) = Some s ->
  (forall line, line ∈ s -> ~ (valid line = true /\ tag line = tag_of address)) ->
  exists (sim' : CacheSimulator) (s' : Set_),
    accessMemory sim address = Some sim' /\
    accesses sim' = accesses sim + 1 /\
    hits sim' = hits sim /\
    misses sim' = misses sim + 1 /\
    sets sim' !! Z.to_nat (index_of address) = Some s' /\
    (Z.of_nat (length (mkCacheLine true (tag_of address) :: s)) <= WAYS ->
       s' = mkCacheLine true (tag_of address) :: s) /\
    (WAYS < Z.of_nat (length (mkCacheLine true (tag_of address) :: s)) ->
       exists (kept : Set_) (lru : CacheLine),
         s = kept ++ [lru] /\ s' = mkCacheLine true (tag_of address) :: kept) /\
    Z.of_nat (length s') <= WAYS /\
    length (sets sim') = length (sets sim) /\
    forall j, j <> Z.to_nat (index_of address) -> sets sim' !! j = sets sim !! j.
Proof.
  intros Hreach Hs Hnone.
  assert (Hmiss : Forall (fun y => line_matches (tag_of address) y = false) s).
  { apply Forall_forall. intros y Hy. specialize (Hnone y Hy).
    destruct (line_matches (tag_of address) y) eqn:Hm; [|reflexivity].
    apply line_matches_true in Hm. subst y. exfalso. apply Hnone. auto. }
  pose proof (accessMemory_miss sim address s Hs Hmiss) as Hstep.
  pose proof (reachable_inv _ Hreach) as Hinv.
  assert (Hok : set_ok s).
  { pose proof (inv_sets _ Hinv) as Hall. rewrite Forall_lookup in Hall. eauto. }
  pose proof (set_ok_miss (tag_of address) s Hok Hmiss) as (Hlen' & _).
  match type of Hstep with
  | _ = Some {| sets := <[_ := ?new]> _ |} => set (s' := new) in *
  end.
  destruct (sets_after_insert (sets sim) _ _ s' Hs) as (Hnew & Hlen & Hother).
  eexists _, s'. split; [exact Hstep|]. simpl.
  repeat (split; [reflexivity|]).
  split; [exact Hnew|].
  split; [|split; [|split; [exact Hlen' | split; [exact Hlen | exact Hother]]]].
  - intros Hroom. subst s'. simpl length in Hroom.
    destruct (Z.ltb_spec WAYS (Z.of_nat (S (length s)))); [lia | reflexivity].
  - intros Hfull. subst s'. simpl length in Hfull.
    destruct (Z.ltb_spec WAYS (Z.of_nat (S (length s)))); [|lia].
    assert (Hne : s <> []) by (intros ->; unfold WAYS in *; simpl in *; lia).
    destruct (exists_last Hne) as (kept & lru & ->).
    exists kept, lru. split; [reflexivity|].
    rewrite pop_back_cons by (destruct kept; discriminate).
    rewrite pop_back_snoc. reflexivity.
Qed.

Lemma miss_path_witness :
  exists sim' s',
    accessMemory (state_after [0x0; 0x2000; 0x4000; 0x6000]) 0x8000 = Some sim' /\
    sets sim' !! 0%nat = Some s' /\
    Z.of_nat (length s') <= WAYS /\ misses sim' = 5.
Proof.
  destruct (miss_path (state_after [0x0; 0x2000; 0x4000; 0x6000]) 0x8000
              [line_of 0x6000; line_of 0x4000; line_of 0x2000; line_of 0x0])
    as (sim' & s' & Hstep & _ & _ & Hm & Hs' & _ & _ & Hlen & _).
  - exists [0x0; 0x2000; 0x4000; 0x6000]. vm_compute. reflexivity.
  - vm_compute. reflexivity.
  - intros line Hin [_ Ht]. rewrite !elem_of_cons in Hin.
    destruct Hin as [->|[->|[->|[->|Hin]]]]; try discriminate Ht.
    inversion Hin.
  - exists sim', s'. split; [exact Hstep|]. split; [exact Hs'|].
    split; [exact Hlen|]. rewrite Hm. reflexivity.
Defined.

(** C6: an access cannot fail.  For every state of the engine and every
    64-bit unsigned address the computed index is below [NUM_SETS = 128],
    which is the size of the vector, so [sets[index]] is in bounds; the call
    returns, and returns a state of the engine. *)
Theorem access_total (sim : CacheSimulator) (address : Address) :
  reachable sim ->
  is_address address ->
  NUM_SETS = 128 /\
  0 <= index_of address < NUM_SETS /\
  length (sets sim) = Z.to_nat NUM_SETS /\
  (Z.to_nat (index_of address) < length (sets sim))%nat /\
  exists sim', accessMemory sim address = Some sim' /\ reachable sim'.
Proof.
  intros Hreach _. pose proof (reachable_inv _ Hreach) as Hinv.
  pose proof (index_of_range address) as Hidx.
  pose proof (inv_num_sets _ Hinv) as Hlen.
  split; [reflexivity|]. split; [exact Hidx|]. split; [exact Hlen|].
  split; [lia|].
  destruct (accessMemory_total sim address Hlen) as [sim' Hstep].
  exists sim'. split; [exact Hstep|]. eapply reachable_step; eauto.
Qed.

Lemma access_total_witness :
  reachable CacheSimulator_new /\ is_address (2 ^ 64 - 1) /\
  exists sim', accessMemory CacheSimulator_new (2 ^ 64 - 1) = Some sim'.
Proof.
  assert (Hr : reachable CacheSimulator_new) by (exists []; reflexivity).
  assert (Ha : is_address (2 ^ 64 - 1)) by (unfold is_address; lia).
  split; [exact Hr|]. split; [exact Ha|].
  destruct (access_total CacheSimulator_new (2 ^ 64 - 1) Hr Ha)
    as (_ & _ & _ & _ & sim' & Hstep & _).
  exists sim'. exact Hstep.
Defined.

(** C7: the hit rate that [printStats] reports.  It is the ratio of [hits]
    to [accesses], written as a percentage (the number is followed by a
    percent sign): in every state with [accesses > 0] it is the binary64
    quotient of [hits] by [accesses], times 100.  When [accesses] is 0 the
    division is not evaluated and the rate is the number +0.0, where the
    quotient 0/0 would have been a NaN; so it is on a freshly constructed
    engine.  As long as [accesses] is below [2^53], where the conversion to
    [double] of a positive counter is a finite number, the rate is never a
    NaN, it is +0.0 when there is no hit and 100 when every access is one.
    The counters are reported as they are. *)
Theorem report_hit_rate (sim : CacheSimulator) :
  (0 < accesses sim ->
     st_hitRate (printStats sim) =
       SFmul prec emax
         (SFdiv prec emax (double_of_Z (hits sim)) (double_of_Z (accesses sim)))
         (double_of_Z 100)) /\
  (accesses sim <= 0 -> st_hitRate (printStats sim) = S754_zero false) /\
  st_hitRate (printStats CacheSimulator_new) = S754_zero false /\
  SFdiv prec emax (double_of_Z 0) (double_of_Z 0) = S754_nan /\
  (accesses sim < 2 ^ 53 -> st_hitRate (printStats sim) <> S754_nan) /\
  (0 < accesses sim < 2 ^ 53 -> hits sim = 0 ->
     st_hitRate (printStats sim) = S754_zero false) /\
  (0 < accesses sim < 2 ^ 53 -> hits sim = accesses sim ->
     st_hitRate (printStats sim) = double_of_Z 100) /\
  st_accesses (printStats sim) = accesses sim /\
  st_hits (printStats sim) = hits sim /\
  st_misses (printStats sim) = misses sim.
Proof.
  cbn [printStats st_hitRate st_accesses st_hits st_misses].
  split; [|split; [|split; [reflexivity|split; [reflexivity|]]]].
  - intros Hpos. unfold hitRate.
    destruct (Z.ltb_spec 0 (accesses sim)); [reflexivity | lia].
  - intros Hzero. unfold hitRate.
    destruct (Z.ltb_spec 0 (accesses sim)); [lia | reflexivity].
  - split; [apply hitRate_not_nan|].
    split; [apply hitRate_no_hits|].
    split; [apply hitRate_all_hits|].
    repeat split.
Qed.

Lemma report_hit_rate_witness :
  0 < accesses (state_after [0x1000; 0x1004]) /\
  hits (state_after [0x1000; 0x1004]) = 1 /\
  st_hitRate (printStats (state_after [0x1000; 0x1004])) = double_of_Z 50.
Proof.
  assert (Hpos : 0 < accesses (state_after [0x1000; 0x1004]))
    by (vm_compute; reflexivity).
  split; [exact Hpos|]. split; [vm_compute; reflexivity|].
  rewrite (proj1 (report_hit_rate (state_after [0x1000; 0x1004])) Hpos).
  vm_compute. reflexivity.
Defined.

(* The unit of the rate: after one miss and one hit the number reported is
   50, which is the fraction 1/2 once divided by 100. *)
Lemma hit_rate_one_of_two :
  hitRate (state_after [0x1000; 0x1004]) = double_of_Z 50 /\
  SFdiv prec emax (hitRate (state_after [0x1000; 0x1004])) (double_of_Z 100)
  = SFdiv prec emax (double_of_Z 1) (double_of_Z 2).
Proof. split; vm_compute; reflexivity. Qed.

(** C8, as the spec has it, fails: the three addresses do not decode to set
    index 0. *)
Lemma spatial_locality_not_index_0 :
  ~ (index_of 0x1000 = 0 /\ index_of 0x1004 = 0 /\ index_of 0x1008 = 0 /\
     tag_of 0x1000 = tag_of 0x1004 /\ tag_of 0x1004 = tag_of 0x1008 /\
     outcomes CacheSimulator_new [0x1000; 0x1004; 0x1008] = Some [Miss; Hit; Hit]).
Proof. intros (H & _). vm_compute in H. discriminate H. Qed.

(** C8, amended: with [OFFSET_BITS = 6] and [INDEX_BITS = 7], the addresses
    [0x1000], [0x1004] and [0x1008] all decode to set index 64 and to the
    tag 0, and a freshly constructed engine given them in that order answers
    miss, hit, hit. *)
Theorem spatial_locality :
  OFFSET_BITS = 6 /\ INDEX_BITS = 7 /\
  index_of 0x1000 = 64 /\ index_of 0x1004 = 64 /\ index_of 0x1008 = 64 /\
  tag_of 0x1000 = 0 /\ tag_of 0x1004 = 0 /\ tag_of 0x1008 = 0 /\
  outcomes CacheSimulator_new [0x1000; 0x1004; 0x1008] = Some [Miss; Hit; Hit].
Proof. repeat split; vm_compute; reflexivity. Qed.

(** C9: eviction of the least recently used line; [WAYS] is 4.  Let a set
    hold four lines with pairwise distinct tags, in recency order
    [t0; t1; t2; t3], and let an address of that set carry a fifth tag [t4].
    The access to it is a miss and leaves the set as [t4; t0; t1; t2]:
    exactly [t3] is evicted.  In the state so reached, an access to [t3] is
    a miss, and an access to [t0], to [t1] or to [t2] is a hit; the three
    hits can also be made one after the other, and [t3] still misses after
    them. *)
Theorem eviction_lru (sim : CacheSimulator) (a0 a1 a2 a3 a4 : Address) :
  index_of a0 = index_of a4 -> index_of a1 = index_of a4 ->
  index_of a2 = index_of a4 -> index_of a3 = index_of a4 ->
  NoDup [tag_of a0; tag_of a1; tag_of a2; tag_of a3; tag_of a4] ->
  sets sim !! Z.to_nat (index_of a4) =
    Some [line_of a0; line_of a1; line_of a2; line_of a3] ->
  WAYS = 4 /\
  exists sim1,
    is_miss sim a4 sim1 /\
    sets sim1 !! Z.to_nat (index_of a4) =
      Some [line_of a4; line_of a0; line_of a1; line_of a2] /\
    (exists sim2, is_miss sim1 a3 sim2) /\
    (exists sim2, is_hit sim1 a0 sim2) /\
    (exists sim2, is_hit sim1 a1 sim2) /\
    (exists sim2, is_hit sim1 a2 sim2) /\
    outcomes sim1 [a0; a1; a2; a3] = Some [Hit; Hit; Hit; Miss].
Proof.
  intros H0 H1 H2 H3 Hnd Hs. split; [reflexivity|].
  rewrite !NoDup_cons, !not_elem_of_cons in Hnd. destruct_and!.
  repeat match goal with
         | Hne : tag_of _ <> tag_of _ |- _ => apply Z.eqb_neq in Hne
         end.
  (* the miss on [a4] *)
  destruct (step_miss sim a4 _ Hs) as (sim1 & Hmiss1 & Hs1); [no_match|].
  change (if WAYS <? _ then _ else _)
    with [line_of a4; line_of a0; line_of a1; line_of a2] in Hs1.
  exists sim1. split; [exact Hmiss1|]. split; [exact Hs1|].
  (* one access from [sim1] *)
  split; [|split; [|split; [|split]]].
  - rewrite <- H3 in Hs1.
    destruct (step_miss sim1 a3 _ Hs1) as (sim2 & Hm & _); [no_match | eauto].
  - rewrite <- H0 in Hs1.
    destruct (step_hit sim1 a0 [line_of a4] (line_of a0) [line_of a1; line_of a2] Hs1)
      as (sim2 & Hh & _); [no_match | the_match | eauto].
  - rewrite <- H1 in Hs1.
    destruct (step_hit sim1 a1 [line_of a4; line_of a0] (line_of a1) [line_of a2] Hs1)
      as (sim2 & Hh & _); [no_match | the_match | eauto].
  - rewrite <- H2 in Hs1.
    destruct (step_hit sim1 a2 [line_of a4; line_of a0; line_of a1] (line_of a2) [] Hs1)
      as (sim2 & Hh & _); [no_match | the_match | eauto].
  - (* the four accesses in a row *)
    rewrite <- H0 in Hs1.
    destruct (step_hit sim1 a0 [line_of a4] (line_of a0) [line_of a1; line_of a2] Hs1)
      as (sim2 & Hh2 & Hs2); [no_match | the_match |].
    rewrite H0, <- H1 in Hs2.
    destruct (step_hit sim2 a1 [line_of a0; line_of a4] (line_of a1) [line_of a2] Hs2)
      as (sim3 & Hh3 & Hs3); [no_match | the_match |].
    rewrite H1, <- H2 in Hs3.
    destruct (step_hit sim3 a2 [line_of a1; line_of a0; line_of a4] (line_of a2) [] Hs3)
      as (sim4 & Hh4 & Hs4); [no_match | the_match |].
    rewrite H2, <- H3 in Hs4.
    destruct (step_miss sim4 a3 _ Hs4) as (sim5 & Hm5 & _); [no_match|].
    rewrite (outcomes_hit _ _ _ _ Hh2), (outcomes_hit _ _ _ _ Hh3),
      (outcomes_hit _ _ _ _ Hh4), (outcomes_miss _ _ _ _ Hm5).
    reflexivity.
Qed.

Lemma eviction_lru_witness :
  exists sim1,
    is_miss (state_after [0x6000; 0x4000; 0x2000; 0x0]) 0x8000 sim1 /\
    sets sim1 !! 0%nat =
      Some [line_of 0x8000; line_of 0x0; line_of 0x2000; line_of 0x4000] /\
    outcomes sim1 [0x0; 0x2000; 0x4000; 0x6000] = Some [Hit; Hit; Hit; Miss].
Proof.
  destruct (eviction_lru (state_after [0x6000; 0x4000; 0x2000; 0x0])
              0x0 0x2000 0x4000 0x6000 0x8000)
    as (_ & sim1 & Hmiss & Hset & _ & _ & _ & _ & Hseq).
  - reflexivity.
  - reflexivity.
  - reflexivity.
  - reflexivity.
  - apply (bool_decide_unpack _). vm_compute. reflexivity.
  - vm_compute. reflexivity.
  - exists sim1. split; [exact Hmiss|]. split; [exact Hset | exact Hseq].
Defined.

(** C10: the trace of [main], run on a freshly constructed engine, ends with
    11 accesses, 4 hits and 7 misses, which [main] reports.  The hits are the
    accesses to [0x1004], [0x1008], [0x2004] and the second [0x1000]; every
    other access is a miss. *)
Theorem reference_trace :
  trace = [0x1000; 0x1004; 0x1008; 0x2000; 0x2004; 0x1000;
           0x3000; 0x4000; 0x5000; 0x6000; 0x7000] /\
  (zip trace <$> outcomes CacheSimulator_new trace) =
    Some [(0x1000, Miss); (0x1004, Hit); (0x1008, Hit);
          (0x2000, Miss); (0x2004, Hit);
          (0x1000, Hit);
          (0x3000, Miss); (0x4000, Miss); (0x5000, Miss);
          (0x6000, Miss); (0x7000, Miss)] /\
  (exists sim,
      runTrace CacheSimulator_new trace = Some sim /\
      accesses sim = 11 /\ hits sim = 4 /\ misses sim = 7) /\
  st_accesses <$> main = Some 11 /\
  st_hits <$> main = Some 4 /\
  st_misses <$> main = Some 7.
Proof.
  split; [reflexivity|]. split; [vm_compute; reflexivity|].
  split; [|repeat split; vm_compute; reflexivity].
  exists (state_after trace). repeat split; vm_compute; reflexivity.
Qed.

(** * Further properties of the code *)

(** ** [get_log2] *)

(** X1: on a positive [int], [get_log2] is the binary logarithm rounded
    down: [2^r <= n < 2^(r+1)] for the result [r]. *)
Theorem get_log2_floor (n : Z) :
  1 <= n < 2 ^ 31 ->
  2 ^ get_log2 n <= n < 2 ^ (get_log2 n + 1).
Proof.
  intros Hn. rewrite get_log2_spec by exact Hn.
  pose proof (Z.log2_spec n ltac:(lia)) as Hspec.
  replace (Z.log2 n + 1) with (Z.succ (Z.log2 n)) by lia. exact Hspec.
Qed.

Lemma get_log2_floor_witness :
  1 <= 100 < 2 ^ 31 /\ 2 ^ get_log2 100 <= 100 < 2 ^ (get_log2 100 + 1).
Proof.
  assert (H : 1 <= 100 < 2 ^ 31) by lia.
  split; [exact H | exact (get_log2_floor 100 H)].
Defined.

(** X2: [get_log2] inverts the powers of two that fit an [int]: it returns
    [k] on [2^k], for [0 <= k <= 30]. *)
Theorem get_log2_pow2 (k : Z) :
  0 <= k <= 30 -> get_log2 (2 ^ k) = k.
Proof.
  intros Hk.
  assert (H31 : 2 ^ k < 2 ^ 31) by (apply Z.pow_lt_mono_r; lia).
  assert (H1 : 1 <= 2 ^ k) by (pose proof (Z.pow_pos_nonneg 2 k); lia).
  rewrite get_log2_spec by lia. apply Z.log2_pow2. lia.
Qed.

Lemma get_log2_pow2_witness : 0 <= 30 <= 30 /\ get_log2 (2 ^ 30) = 30.
Proof.
  assert (H : 0 <= 30 <= 30) by lia.
  split; [exact H | exact (get_log2_pow2 30 H)].
Defined.

(** X3: [get_log2] is monotone on [int] and its results lie between 0 and
    30; on 1, 0 and the negative numbers it returns 0. *)
Theorem get_log2_mono (n m : Z) :
  n <= m -> m < 2 ^ 31 ->
  0 <= get_log2 n /\ get_log2 n <= get_log2 m /\ get_log2 m <= 30 /\
  (n <= 1 -> get_log2 n = 0).
Proof.
  intros Hnm Hm.
  assert (Hbound : forall x, x < 2 ^ 31 -> 0 <= get_log2 x <= 30).
  { intros x Hx. destruct (Z_le_gt_dec x 1) as [Hle|Hgt].
    - rewrite get_log2_nonpos by exact Hle. lia.
    - rewrite get_log2_spec by lia. split; [apply Z.log2_nonneg|].
      assert (Z.log2 x < 31); [|lia]. apply Z.log2_lt_pow2; lia. }
  split; [apply Hbound; lia|]. split; [|split; [apply Hbound; lia|]].
  - destruct (Z_le_gt_dec n 1) as [Hle|Hgt].
    + rewrite (get_log2_nonpos n) by exact Hle. apply Hbound. exact Hm.
    + rewrite !get_log2_spec by lia. apply Z.log2_le_mono. exact Hnm.
  - apply get_log2_nonpos.
Qed.

Lemma get_log2_mono_witness :
  get_log2 (-5) <= get_log2 1000 /\ get_log2 1000 <= 30.
Proof.
  destruct (get_log2_mono (-5) 1000) as (_ & H1 & H2 & _);
    [lia | lia | split; assumption].
Defined.

(** ** Address decoding *)

Lemma decode_block (a b : Z) :
  index_of a = index_of b /\ tag_of a = tag_of b <->
  a / BLOCK_SIZE = b / BLOCK_SIZE.
Proof.
  rewrite !index_of_mod, !tag_of_div. change BLOCK_SIZE with (2 ^ 6).
  assert (Hdiv : forall x, x / 2 ^ 13 = x / 2 ^ 6 / 2 ^ 7)
    by (intros x; rewrite Z.div_div by lia; reflexivity).
  rewrite !Hdiv. split.
  - intros [Hi Ht].
    rewrite (Z.div_mod (a / 2 ^ 6) (2 ^ 7)), (Z.div_mod (b / 2 ^ 6) (2 ^ 7)) by lia.
    rewrite Hi, Ht. reflexivity.
  - intros ->. split; reflexivity.
Qed.

(** X4: two addresses decode to the same set index and the same tag exactly
    when they lie in the same block of [BLOCK_SIZE] bytes: the offset bits
    are ignored and nothing else is. *)
Theorem same_block_same_line (a b : Address) :
  index_of a = index_of b /\ tag_of a = tag_of b <->
  a / BLOCK_SIZE = b / BLOCK_SIZE.
Proof. apply decode_block. Qed.

(** ** Inversion of one access *)

(* Every successful access is one of the two branches, on the set that the
   index selects. *)
Lemma accessMemory_inv (sim sim' : CacheSimulator) (a : Address) :
  accessMemory sim a = Some sim' ->
  exists s : Set_,
    sets sim !! Z.to_nat (index_of a) = Some s /\
    ((exists pre post : Set_,
         s = pre ++ line_of a :: post /\
         Forall (fun y => line_matches (tag_of a) y = false) pre /\
         is_hit sim a sim' /\
         sets sim' = <[Z.to_nat (index_of a) := line_of a :: pre ++ post]> (sets sim)) \/
     (Forall (fun y => line_matches (tag_of a) y = false) s /\
      is_miss sim a sim' /\
      sets sim' = <[Z.to_nat (index_of a) :=
                     if WAYS <? Z.of_nat (S (length s))
                     then pop_back (line_of a :: s)
                     else line_of a :: s]> (sets sim))).
Proof.
  intros Hstep.
  destruct (sets sim !! Z.to_nat (index_of a)) as [s|] eqn:Hs.
  2:{ unfold accessMemory in Hstep. cbv zeta in Hstep. rewrite Hs in Hstep.
      discriminate. }
  exists s. split; [reflexivity|].
  destruct (set_hit_or_miss (tag_of a) s) as [(pre & post & -> & Hpre)|Hmiss].
  - left. exists pre, post.
    pose proof (accessMemory_hit sim a pre _ post Hs Hpre
                  (proj2 (line_matches_true _ _) eq_refl)) as Hhit.
    rewrite Hhit in Hstep. injection Hstep as <-.
    split; [reflexivity|]. split; [exact Hpre|].
    split; [|reflexivity]. split; [exact Hhit|]. simpl. auto.
  - right. pose proof (accessMemory_miss sim a s Hs Hmiss) as Hm.
    rewrite Hm in Hstep. injection Hstep as <-.
    split; [exact Hmiss|]. split; [|reflexivity].
    split; [exact Hm|]. simpl. auto.
Qed.

(* The new line survives the cut to [WAYS] lines: it is at the front. *)
Lemma evict_front (x : CacheLine) (s : Set_) :
  exists rest : Set_,
    (if WAYS <? Z.of_nat (S (length s)) then pop_back (x :: s) else x :: s)
    = x :: rest.
Proof.
  destruct (Z.ltb_spec WAYS (Z.of_nat (S (length s)))) as [Hfull|_].
  - exists (pop_back s). apply pop_back_cons. intros ->.
    unfold WAYS in Hfull. simpl in Hfull. lia.
  - exists s. reflexivity.
Qed.

(* After an access the line of the address is the first of its set. *)
Lemma access_front (sim sim' : CacheSimulator) (a : Address) :
  accessMemory sim a = Some sim' ->
  exists rest : Set_,
    sets sim' !! Z.to_nat (index_of a) = Some (line_of a :: rest).
Proof.
  intros Hstep.
  destruct (accessMemory_inv _ _ _ Hstep)
    as (s & Hs & [(pre & post & _ & _ & _ & ->)|(_ & _ & ->)]).
  - exists (pre ++ post). eapply sets_after_insert. exact Hs.
  - destruct (evict_front (line_of a) s) as [rest ->].
    exists rest. eapply sets_after_insert. exact Hs.
Qed.

(* An access hits exactly when the line of the address is in the set. *)
Lemma hit_iff_present (sim : CacheSimulator) (a : Address) (s : Set_) :
  sets sim !! Z.to_nat (index_of a) = Some s ->
  (exists sim', is_hit sim a sim') <-> line_of a ∈ s.
Proof.
  intros Hs. split.
  - intros (sim' & Hstep & _ & Hh & Hm).
    destruct (accessMemory_inv _ _ _ Hstep)
      as (s0 & Hs0 & [(pre & post & -> & _)|(_ & (_ & _ & Hh' & _) & _)]).
    + assert (s = pre ++ line_of a :: post) by congruence. subst s.
      apply elem_of_app. right. apply list_elem_of_here.
    + lia.
  - intros Hin.
    destruct (set_hit_or_miss (tag_of a) s) as [(pre & post & -> & Hpre)|Hmiss].
    + destruct (step_hit sim a pre _ post Hs Hpre) as (sim' & Hhit & _).
      * apply line_matches_true. reflexivity.
      * eauto.
    + rewrite Forall_forall in Hmiss. specialize (Hmiss _ Hin).
      rewrite line_matches_line_of, Z.eqb_refl in Hmiss. discriminate.
Qed.

Lemma miss_iff_absent (sim : CacheSimulator) (a : Address) (s : Set_) :
  sets sim !! Z.to_nat (index_of a) = Some s ->
  (exists sim', is_miss sim a sim') <-> line_of a ∉ s.
Proof.
  intros Hs. split.
  - intros (sim' & Hstep & _ & Hh & Hm) Hin.
    apply (hit_iff_present sim a s Hs) in Hin as (sim'' & Hstep' & _ & Hh' & _).
    assert (sim'' = sim') by congruence. subst. lia.
  - intros Hnin.
    destruct (step_miss sim a s Hs) as (sim' & Hmiss & _); [|eauto].
    apply Forall_forall. intros y Hy.
    destruct (line_matches (tag_of a) y) eqn:Hm; [|reflexivity].
    apply line_matches_true in Hm. subst y. contradiction.
Qed.

(** ** Locality *)

(** X5: temporal and spatial locality.  After any access, an access to an
    address of the same block is a hit, and it leaves every set as it is
    (the line is already the most recently used one). *)
Theorem same_block_hits_again (sim sim' : CacheSimulator) (a b : Address) :
  accessMemory sim a = Some sim' ->
  b / BLOCK_SIZE = a / BLOCK_SIZE ->
  exists sim'', is_hit sim' b sim'' /\ sets sim'' = sets sim'.
Proof.
  intros Hstep Hblock. apply decode_block in Hblock as [Hi Ht].
  destruct (access_front _ _ _ Hstep) as [rest Hfront].
  assert (Hline : line_of a = line_of b) by (unfold line_of; congruence).
  rewrite <- Hi, Hline in Hfront.
  assert (Hhit : exists sim'', is_hit sim' b sim'').
  { eapply hit_iff_present; [exact Hfront | apply list_elem_of_here]. }
  destruct Hhit as (sim'' & Hhit). exists sim''. split; [exact Hhit|].
  destruct Hhit as (Hstep' & _ & Hh1 & _).
  destruct (accessMemory_inv _ _ _ Hstep')
    as (s & Hs & [(pre & post & Heq & Hpre & _ & ->)|(_ & (_ & _ & Hh & _) & _)]).
  - assert (Hs' : line_of b :: rest = pre ++ line_of b :: post) by congruence.
    destruct pre as [|y pre].
    + simpl in *. injection Hs' as <-. apply list_insert_id. exact Hfront.
    + simpl in Hs'. injection Hs' as <- _. inversion Hpre as [|? ? Hy _]; subst.
      rewrite line_matches_line_of, Z.eqb_refl in Hy. discriminate.
  - lia.
Qed.

Lemma same_block_hits_again_witness :
  exists sim'',
    is_hit (state_after [0x1000]) 0x103F sim'' /\
    sets sim'' = sets (state_after [0x1000]).
Proof.
  apply (same_block_hits_again CacheSimulator_new (state_after [0x1000]) 0x1000 0x103F).
  - vm_compute. reflexivity.
  - vm_compute. reflexivity.
Defined.

(** ** Sets are independent of each other *)

Lemma access_frame (sim sim' : CacheSimulator) (a : Address) :
  accessMemory sim a = Some sim' ->
  length (sets sim') = length (sets sim) /\
  forall j, j <> Z.to_nat (index_of a) -> sets sim' !! j = sets sim !! j.
Proof.
  intros Hstep.
  destruct (accessMemory_inv _ _ _ Hstep)
    as (s & Hs & [(pre & post & _ & _ & _ & ->)|(_ & _ & ->)]);
    eapply sets_after_insert; exact Hs.
Qed.

Lemma index_of_to_nat (a b : Address) :
  Z.to_nat (index_of a) = Z.to_nat (index_of b) -> index_of a = index_of b.
Proof.
  pose proof (index_of_range a). pose proof (index_of_range b).
  apply Z2Nat.inj; lia.
Qed.

Lemma runTrace_frame (t : list Address) :
  forall (sim sim' : CacheSimulator) (j : nat),
    runTrace sim t = Some sim' ->
    (forall b, b ∈ t -> Z.to_nat (index_of b) <> j) ->
    sets sim' !! j = sets sim !! j.
Proof.
  induction t as [|b t IH]; intros sim sim' j Hrun Hidx; simpl in Hrun.
  - injection Hrun as <-. reflexivity.
  - destruct (accessMemory sim b) as [sim1|] eqn:Hstep; simpl in Hrun;
      [|discriminate].
    rewrite (IH sim1 sim' j Hrun).
    + apply (access_frame _ _ _ Hstep). intros ->.
      apply (Hidx b); [apply list_elem_of_here | reflexivity].
    + intros b' Hb'. apply Hidx. apply list_elem_of_further. exact Hb'.
Qed.

(** X6: accesses that select other sets do not interfere.  If no address of
    a trace has the index of [a], then running the trace leaves the set of
    [a] as it was, and an access to [a] is a hit after the trace exactly when
    it was one before. *)
Theorem other_sets_do_not_interfere
    (sim sim' : CacheSimulator) (t : list Address) (a : Address) :
  runTrace sim t = Some sim' ->
  (forall b, b ∈ t -> index_of b <> index_of a) ->
  sets sim' !! Z.to_nat (index_of a) = sets sim !! Z.to_nat (index_of a) /\
  ((exists sim1, is_hit sim' a sim1) <-> (exists sim2, is_hit sim a sim2)).
Proof.
  intros Hrun Hidx.
  assert (Hsame : sets sim' !! Z.to_nat (index_of a)
                  = sets sim !! Z.to_nat (index_of a)).
  { apply (runTrace_frame t _ _ _ Hrun). intros b Hb Heq.
    apply (Hidx b Hb). apply index_of_to_nat. exact Heq. }
  split; [exact Hsame|].
  destruct (sets sim !! Z.to_nat (index_of a)) as [s|] eqn:Hs.
  - rewrite (hit_iff_present sim' a s Hsame), (hit_iff_present sim a s Hs).
    reflexivity.
  - split; intros (x & Hstep & _);
      destruct (accessMemory_inv _ _ _ Hstep) as (s & Hs' & _); congruence.
Qed.

Lemma other_sets_do_not_interfere_witness :
  sets (state_after [0x1000; 0x2000; 0x4000]) !! Z.to_nat (index_of 0x1000)
  = sets (state_after [0x1000]) !! Z.to_nat (index_of 0x1000).
Proof.
  apply (other_sets_do_not_interfere
           (state_after [0x1000]) (state_after [0x1000; 0x2000; 0x4000])
           [0x2000; 0x4000] 0x1000).
  - vm_compute. reflexivity.
  - intros b Hb. rewrite !elem_of_cons in Hb.
    destruct Hb as [->|[->|Hb]]; [discriminate | discriminate | inversion Hb].
Defined.

(** ** Counters over a run *)

(** X7: the counters over a run of the loop of [main], from any state:
    [accesses] grows by the length of the trace, [hits] and [misses] never
    decrease and grow by that length together; the number of sets does not
    change. *)
Theorem counters_over_run (sim sim' : CacheSimulator) (t : list Address) :
  runTrace sim t = Some sim' ->
  accesses sim' = accesses sim + Z.of_nat (length t) /\
  hits sim <= hits sim' /\ misses sim <= misses sim' /\
  (hits sim' - hits sim) + (misses sim' - misses sim) = Z.of_nat (length t) /\
  length (sets sim') = length (sets sim).
Proof.
  revert sim. induction t as [|b t IH]; intros sim Hrun; simpl in Hrun.
  - injection Hrun as <-. simpl. lia.
  - destruct (accessMemory sim b) as [sim1|] eqn:Hstep; simpl in Hrun;
      [|discriminate].
    destruct (IH sim1 Hrun) as (Ha & Hh & Hm & Hsum & Hlen).
    pose proof (proj1 (access_frame _ _ _ Hstep)) as Hlen1.
    rewrite Hlen, Hlen1. simpl length. rewrite Nat2Z.inj_succ.
    destruct (accessMemory_counters _ _ _ Hstep)
      as [(_ & Ha1 & Hh1 & Hm1)|(_ & Ha1 & Hh1 & Hm1)]; lia.
Qed.

Lemma counters_over_run_witness :
  accesses (state_after [0x1000; 0x1004; 0x2000]) =
  accesses (state_after [0x1000]) + 2.
Proof.
  apply (counters_over_run (state_after [0x1000])
           (state_after [0x1000; 0x1004; 0x2000]) [0x1004; 0x2000]).
  vm_compute. reflexivity.
Defined.

(** ** Where lines come from, and how they leave *)

Lemma evict_subset (x y : CacheLine) (s : Set_) :
  y ∈ (if WAYS <? Z.of_nat (S (length s)) then pop_back (x :: s) else x :: s) ->
  y = x \/ y ∈ s.
Proof.
  intros Hy. apply elem_of_cons.
  destruct (WAYS <? Z.of_nat (S (length s))); [|exact Hy].
  eapply elem_of_sublist; [exact Hy|]. apply pop_back_sublist.
Qed.

Lemma lines_from_new : lines_from [] CacheSimulator_new.
Proof.
  intros j s x Hs Hx. unfold CacheSimulator_new in Hs. cbn [sets] in Hs.
  apply lookup_replicate in Hs as [-> _]. inversion Hx.
Qed.

Lemma lines_from_step (h : list Address) (sim sim' : CacheSimulator) (a : Address) :
  lines_from h sim -> accessMemory sim a = Some sim' ->
  lines_from (h ++ [a]) sim'.
Proof.
  intros Hfrom Hstep j s' x Hs' Hx.
  assert (Hold : forall s, sets sim !! j = Some s -> x ∈ s ->
                 exists b, b ∈ h ++ [a] /\ Z.to_nat (index_of b) = j /\ x = line_of b).
  { intros s Hs Hin. destruct (Hfrom j s x Hs Hin) as (b & Hb & Hj & Hl).
    exists b. split; [apply elem_of_app; auto | auto]. }
  assert (Hnew : j = Z.to_nat (index_of a) -> x = line_of a ->
                 exists b, b ∈ h ++ [a] /\ Z.to_nat (index_of b) = j /\ x = line_of b).
  { intros -> ->. exists a. split; [|auto].
    apply elem_of_app. right. apply list_elem_of_here. }
  destruct (decide (j = Z.to_nat (index_of a))) as [Hj|Hj].
  - destruct (accessMemory_inv _ _ _ Hstep)
      as (s & Hs & [(pre & post & -> & _ & _ & Hsets)|(_ & _ & Hsets)]);
      rewrite Hsets in Hs'; subst j;
      rewrite (proj1 (sets_after_insert _ _ _ _ Hs)) in Hs';
      injection Hs' as <-.
    + apply elem_of_cons in Hx as [->|Hx]; [auto|].
      apply (Hold _ Hs). rewrite elem_of_app in Hx. rewrite elem_of_app, elem_of_cons.
      tauto.
    + apply evict_subset in Hx as [->|Hx]; [auto|]. apply (Hold _ Hs Hx).
  - rewrite (proj2 (access_frame _ _ _ Hstep) j Hj) in Hs'. eauto.
Qed.

Lemma runTrace_lines_from (t : list Address) :
  forall (h : list Address) (sim sim' : CacheSimulator),
    lines_from h sim -> runTrace sim t = Some sim' -> lines_from (h ++ t) sim'.
Proof.
  induction t as [|b t IH]; intros h sim sim' Hfrom Hrun; simpl in Hrun.
  - injection Hrun as <-. rewrite app_nil_r. exact Hfrom.
  - destruct (accessMemory sim b) as [sim1|] eqn:Hstep; simpl in Hrun;
      [|discriminate].
    replace (h ++ b :: t) with ((h ++ [b]) ++ t) by (rewrite <- app_assoc; reflexivity).
    eapply IH; [|exact Hrun]. eapply lines_from_step; eauto.
Qed.

(** X8: compulsory misses.  On an engine that started fresh, an access to a
    block that no earlier access has touched is a miss; in particular the
    first access is always one. *)
Theorem first_touch_misses (t : list Address) (sim : CacheSimulator) (a : Address) :
  runTrace CacheSimulator_new t = Some sim ->
  (forall b, b ∈ t -> b / BLOCK_SIZE <> a / BLOCK_SIZE) ->
  exists sim', is_miss sim a sim'.
Proof.
  intros Hrun Hfresh.
  pose proof (runTrace_lines_from t [] _ _ lines_from_new Hrun) as Hfrom.
  assert (Hinv : cache_inv sim) by (apply reachable_inv; exists t; exact Hrun).
  destruct (sets_lookup sim a (inv_num_sets _ Hinv)) as [s Hs].
  apply (miss_iff_absent sim a s Hs). intros Hin.
  destruct (Hfrom _ _ _ Hs Hin) as (b & Hb & Hj & Hl).
  apply (Hfresh b Hb). apply decode_block. split.
  - apply index_of_to_nat. exact Hj.
  - unfold line_of in Hl. congruence.
Qed.

Lemma first_touch_misses_witness :
  exists sim', is_miss (state_after [0x1000; 0x2000]) 0x1040 sim'.
Proof.
  apply (first_touch_misses [0x1000; 0x2000]).
  - vm_compute. reflexivity.
  - intros b Hb. rewrite !elem_of_cons in Hb.
    destruct Hb as [->|[->|Hb]]; [discriminate | discriminate | inversion Hb].
Defined.

(** X9: a line leaves the cache in one way only.  If a line of some set is
    no longer in that set after an access, then the access was a miss on
    that very set, the set was full, the line was its last (least recently
    used) one, and the set is now the new line followed by the other old
    lines in their order. *)
Theorem only_lru_leaves (sim sim' : CacheSimulator) (a : Address)
    (j : nat) (s s' : Set_) (x : CacheLine) :
  accessMemory sim a = Some sim' ->
  sets sim !! j = Some s ->
  sets sim' !! j = Some s' ->
  x ∈ s -> x ∉ s' ->
  j = Z.to_nat (index_of a) /\
  is_miss sim a sim' /\
  WAYS <= Z.of_nat (length s) /\
  last s = Some x /\
  s' = line_of a :: removelast s.
Proof.
  intros Hstep Hs Hs' Hin Hout.
  destruct (decide (j = Z.to_nat (index_of a))) as [->|Hj].
  2:{ rewrite (proj2 (access_frame _ _ _ Hstep) j Hj) in Hs'.
      assert (s' = s) by congruence. subst. contradiction. }
  destruct (accessMemory_inv _ _ _ Hstep) as (s0 & Hs0 & Hcases).
  assert (s0 = s) by congruence. subst s0.
  destruct Hcases as [(pre & post & Heq & _ & _ & Hsets)|(_ & Hmiss & Hsets)];
    rewrite Hsets in Hs';
    rewrite (proj1 (sets_after_insert _ _ _ _ Hs)) in Hs';
    injection Hs' as <-.
  - exfalso. subst s. apply Hout. rewrite elem_of_cons, elem_of_app.
    rewrite elem_of_app, elem_of_cons in Hin. tauto.
  - destruct (Z.ltb_spec WAYS (Z.of_nat (S (length s)))) as [Hfull|_].
    2:{ exfalso. apply Hout. apply list_elem_of_further. exact Hin. }
    assert (Hne : s <> []) by (intros ->; inversion Hin).
    change (match s with [] => [] | _ :: _ => line_of a :: pop_back s end)
      with (pop_back (line_of a :: s)) in *.
    rewrite pop_back_cons in Hout |- * by exact Hne.
    destruct (exists_last Hne) as (kept & lru & ->).
    unfold pop_back in Hout. rewrite removelast_last in Hout.
    unfold pop_back. rewrite removelast_last.
    split; [reflexivity|]. split; [exact Hmiss|]. split; [lia|].
    split; [|reflexivity]. rewrite last_snoc. f_equal.
    apply elem_of_app in Hin as [Hin|Hin].
    + exfalso. apply Hout. apply list_elem_of_further. exact Hin.
    + apply list_elem_of_singleton in Hin. congruence.
Qed.

Lemma only_lru_leaves_witness :
  is_miss (state_after [0x0; 0x2000; 0x4000; 0x6000]) 0x8000
          (state_after [0x0; 0x2000; 0x4000; 0x6000; 0x8000]) /\
  last [line_of 0x6000; line_of 0x4000; line_of 0x2000; line_of 0x0]
  = Some (line_of 0x0).
Proof.
  destruct (only_lru_leaves
              (state_after [0x0; 0x2000; 0x4000; 0x6000])
              (state_after [0x0; 0x2000; 0x4000; 0x6000; 0x8000])
              0x8000 0%nat
              [line_of 0x6000; line_of 0x4000; line_of 0x2000; line_of 0x0]
              [line_of 0x8000; line_of 0x6000; line_of 0x4000; line_of 0x2000]
              (line_of 0x0))
    as (_ & Hmiss & _ & Hlast & _).
  - vm_compute. reflexivity.
  - vm_compute. reflexivity.
  - vm_compute. reflexivity.
  - apply list_elem_of_lookup. exists 3%nat. reflexivity.
  - intros Hin. rewrite !elem_of_cons in Hin.
    destruct Hin as [H|[H|[H|[H|H]]]]; try discriminate H. inversion H.
  - split; [exact Hmiss | exact Hlast].
Defined.

(** ** Retention under LRU *)

Lemma line_of_no_match (a b : Address) :
  line_matches (tag_of b) (line_of a) = false -> tag_of b <> tag_of a.
Proof.
  rewrite line_matches_line_of. intros H Heq. rewrite Heq, Z.eqb_refl in H.
  discriminate H.
Qed.

(* Lines with pairwise distinct tags, all of [D], are no more than [D] has. *)
Lemma distinct_tags_bound (D : list Address) (l : Set_) :
  NoDup (tag <$> l) -> Forall (fun x => tag x ∈ D) l ->
  (length l <= length D)%nat.
Proof.
  intros Hnd Hall. rewrite <- (length_fmap tag l).
  apply submseteq_length, NoDup_submseteq; [exact Hnd|].
  intros t Ht. apply list_elem_of_fmap in Ht as (x & -> & Hx).
  rewrite Forall_forall in Hall. auto.
Qed.

Lemma kept_ahead_step (a b : Address) (D : list Address)
    (sim sim' : CacheSimulator) :
  cache_inv sim -> kept_ahead a D sim ->
  Z.of_nat (length D) < WAYS ->
  (index_of b = index_of a -> tag_of b = tag_of a \/ tag_of b ∈ D) ->
  accessMemory sim b = Some sim' ->
  kept_ahead a D sim'.
Proof.
  intros Hinv (pre & post & Hs & Hpre) HD Hb Hstep.
  destruct (decide (Z.to_nat (index_of a) = Z.to_nat (index_of b))) as [Hi|Hi].
  2:{ exists pre, post. split; [|exact Hpre].
      rewrite (proj2 (access_frame _ _ _ Hstep) _ Hi). exact Hs. }
  apply index_of_to_nat in Hi. symmetry in Hi. specialize (Hb Hi).
  assert (Hok : set_ok (pre ++ line_of a :: post)).
  { pose proof (inv_sets _ Hinv) as Hall. rewrite Forall_lookup in Hall. eauto. }
  destruct Hok as (Hlen & Hvalid & Hnodup).
  destruct (accessMemory_inv _ _ _ Hstep) as (s0 & Hs0 & Hcases).
  rewrite Hi in Hs0, Hcases.
  assert (s0 = pre ++ line_of a :: post) by congruence. subst s0.
  unfold kept_ahead.
  destruct Hcases as [(pre0 & post0 & Heq & Hpre0 & _ & ->)|(Hmiss & _ & ->)];
    rewrite (proj1 (sets_after_insert _ _ _ _ Hs)).
  - (* hit on the line of [b] *)
    apply app_eq_inv in Heq as [(k & Hk1 & Hk2)|(k & Hk1 & Hk2)].
    + destruct k as [|y k]; simpl in Hk2; injection Hk2 as Hy Hpost0.
      * rewrite app_nil_r in Hk1. subst. exists [], (pre0 ++ post).
        split; [simpl; unfold line_of; congruence | constructor].
      * subst. exists (line_of b :: pre0 ++ k), post. split.
        -- simpl. rewrite <- !app_assoc. reflexivity.
        -- rewrite Forall_app, Forall_cons in Hpre.
           rewrite Forall_cons, Forall_app. tauto.
    + destruct k as [|y k]; simpl in Hk2; injection Hk2 as Hy Hpost.
      * rewrite app_nil_r in Hk1. subst. exists [], (pre ++ post0).
        split; [simpl; unfold line_of; congruence | constructor].
      * subst. exists (line_of b :: pre), (k ++ post0). split.
        -- simpl. rewrite <- !app_assoc. reflexivity.
        -- constructor; [|exact Hpre]. simpl.
           rewrite Forall_app, Forall_cons in Hpre0.
           destruct Hpre0 as (_ & Hna & _). apply line_of_no_match in Hna.
           destruct Hb; [contradiction | assumption].
  - (* miss: the line of [b] goes in front *)
    assert (Hna : tag_of b <> tag_of a).
    { rewrite Forall_app, Forall_cons in Hmiss.
      apply line_of_no_match. apply Hmiss. }
    assert (HbD : tag_of b ∈ D) by (destruct Hb; [contradiction | assumption]).
    assert (Hpre' : Forall (fun x => tag x ∈ D) (line_of b :: pre))
      by (constructor; assumption).
    destruct (Z.ltb_spec WAYS (Z.of_nat (S (length (pre ++ line_of a :: post)))))
      as [Hfull|_].
    2:{ exists (line_of b :: pre), post. split; [reflexivity | exact Hpre']. }
    destruct (decide (post = [])) as [->|Hne].
    + exfalso. rewrite length_app in Hfull. simpl in Hfull.
      assert (Hnd : NoDup (tag <$> line_of b :: pre)).
      { rewrite fmap_cons. apply NoDup_cons. split.
        - intros Hin. apply list_elem_of_fmap in Hin as (y & Hy & Hyin).
          rewrite Forall_forall in Hmiss, Hvalid.
          assert (Hy' : y ∈ pre ++ [line_of a]) by (apply elem_of_app; auto).
          apply (line_matches_false_valid (tag_of b) y); auto.
        - rewrite fmap_app in Hnodup. apply NoDup_app in Hnodup. tauto. }
      pose proof (distinct_tags_bound D _ Hnd Hpre') as Hbound.
      simpl in Hbound. unfold WAYS in *. lia.
    + destruct (exists_last Hne) as (post' & z & ->).
      exists (line_of b :: pre), post'. split; [|exact Hpre'].
      replace (line_of b :: pre ++ line_of a :: post' ++ [z])
        with ((line_of b :: pre ++ line_of a :: post') ++ [z])
        by (simpl; rewrite <- app_assoc; reflexivity).
      rewrite pop_back_snoc. reflexivity.
Qed.

Lemma kept_ahead_run (a : Address) (D : list Address) (t : list Address) :
  Z.of_nat (length D) < WAYS ->
  forall sim sim' : CacheSimulator,
    cache_inv sim -> kept_ahead a D sim ->
    (forall b, b ∈ t -> index_of b = index_of a ->
               tag_of b = tag_of a \/ tag_of b ∈ D) ->
    runTrace sim t = Some sim' ->
    kept_ahead a D sim'.
Proof.
  intros HD. induction t as [|b t IH]; intros sim sim' Hinv Hkept Ht Hrun;
    simpl in Hrun.
  - injection Hrun as <-. exact Hkept.
  - destruct (accessMemory sim b) as [sim1|] eqn:Hstep; simpl in Hrun;
      [|discriminate].
    apply (IH sim1 sim').
    + eapply cache_inv_step; eauto.
    + apply (kept_ahead_step a b D sim sim1 Hinv Hkept HD); [|exact Hstep].
      apply Ht. apply list_elem_of_here.
    + intros b' Hb'. apply Ht. apply list_elem_of_further. exact Hb'.
    + exact Hrun.
Qed.

(** X10: what LRU guarantees.  Let [a] be accessed in a state of the engine
    and then any trace in which the accesses to the set of [a] that are not
    to the tag of [a] use fewer than [WAYS] different tags (those of the list
    [D]); accesses to other sets are free.  The whole run succeeds, and an
    access to [a] after it is a hit: the line has not been evicted. *)
Theorem lru_retention
    (sim : CacheSimulator) (a : Address) (t D : list Address) :
  reachable sim ->
  Z.of_nat (length D) < WAYS ->
  (forall b, b ∈ t -> index_of b = index_of a ->
             tag_of b = tag_of a \/ tag_of b ∈ D) ->
  exists sim1 sim2 sim3,
    accessMemory sim a = Some sim1 /\
    runTrace sim1 t = Some sim2 /\
    is_hit sim2 a sim3.
Proof.
  intros Hreach HD Ht. pose proof (reachable_inv _ Hreach) as Hinv.
  destruct (accessMemory_total sim a (inv_num_sets _ Hinv)) as [sim1 Hstep].
  pose proof (cache_inv_step _ _ _ Hinv Hstep) as Hinv1.
  destruct (runTrace_inv t sim1 Hinv1) as (sim2 & Hrun & _ & _).
  assert (Hkept1 : kept_ahead a D sim1).
  { destruct (access_front _ _ _ Hstep) as [rest Hfront].
    exists [], rest. split; [exact Hfront | constructor]. }
  destruct (kept_ahead_run a D t HD sim1 sim2 Hinv1 Hkept1 Ht Hrun)
    as (pre & post & Hs2 & _).
  assert (Hhit : exists sim3, is_hit sim2 a sim3).
  { apply (hit_iff_present sim2 a _ Hs2).
    apply elem_of_app. right. apply list_elem_of_here. }
  destruct Hhit as [sim3 Hhit]. exists sim1, sim2, sim3. auto.
Qed.

Lemma lru_retention_witness :
  exists sim1 sim2 sim3,
    accessMemory CacheSimulator_new 0x0 = Some sim1 /\
    runTrace sim1 [0x2000; 0x4000; 0x1000; 0x6000; 0x2004; 0x4000] = Some sim2 /\
    is_hit sim2 0x0 sim3.
Proof.
  apply (lru_retention CacheSimulator_new 0x0
           [0x2000; 0x4000; 0x1000; 0x6000; 0x2004; 0x4000] [1; 2; 3]).
  - exists []. reflexivity.
  - vm_compute. reflexivity.
  - intros b Hb Hi. rewrite !elem_of_cons in Hb.
    destruct Hb as [->|[->|[->|[->|[->|[->|Hb]]]]]];
      try discriminate Hi; try (inversion Hb);
      right; apply (bool_decide_unpack _); vm_compute; reflexivity.
Defined.

(** ** Thrashing *)

Lemma thrash_round (sim : CacheSimulator) (a0 a1 a2 a3 a4 : Address) :
  index_of a0 = index_of a4 -> index_of a1 = index_of a4 ->
  index_of a2 = index_of a4 -> index_of a3 = index_of a4 ->
  NoDup [tag_of a0; tag_of a1; tag_of a2; tag_of a3; tag_of a4] ->
  sets sim !! Z.to_nat (index_of a4) =
    Some [line_of a3; line_of a2; line_of a1; line_of a0] ->
  exists sim',
    sets sim' !! Z.to_nat (index_of a4) =
      Some [line_of a3; line_of a2; line_of a1; line_of a0] /\
    forall rest,
      outcomes sim (a4 :: a0 :: a1 :: a2 :: a3 :: rest) =
      (fun os => Miss :: Miss :: Miss :: Miss :: Miss :: os) <$> outcomes sim' rest.
Proof.
  intros H0 H1 H2 H3 Hnd Hs.
  rewrite !NoDup_cons, !not_elem_of_cons in Hnd. destruct_and!.
  repeat match goal with
         | Hne : tag_of _ <> tag_of _ |- _ => apply Z.eqb_neq in Hne
         end.
  destruct (step_miss sim a4 _ Hs) as (sim1 & Hm1 & Hs1); [no_match|].
  change (if WAYS <? _ then _ else _)
    with [line_of a4; line_of a3; line_of a2; line_of a1] in Hs1.
  rewrite <- H0 in Hs1.
  destruct (step_miss sim1 a0 _ Hs1) as (sim2 & Hm2 & Hs2); [no_match|].
  change (if WAYS <? _ then _ else _)
    with [line_of a0; line_of a4; line_of a3; line_of a2] in Hs2.
  rewrite H0, <- H1 in Hs2.
  destruct (step_miss sim2 a1 _ Hs2) as (sim3 & Hm3 & Hs3); [no_match|].
  change (if WAYS <? _ then _ else _)
    with [line_of a1; line_of a0; line_of a4; line_of a3] in Hs3.
  rewrite H1, <- H2 in Hs3.
  destruct (step_miss sim3 a2 _ Hs3) as (sim4 & Hm4 & Hs4); [no_match|].
  change (if WAYS <? _ then _ else _)
    with [line_of a2; line_of a1; line_of a0; line_of a4] in Hs4.
  rewrite H2, <- H3 in Hs4.
  destruct (step_miss sim4 a3 _ Hs4) as (sim5 & Hm5 & Hs5); [no_match|].
  change (if WAYS <? _ then _ else _)
    with [line_of a3; line_of a2; line_of a1; line_of a0] in Hs5.
  rewrite H3 in Hs5.
  exists sim5. split; [exact Hs5|]. intros rest.
  rewrite (outcomes_miss _ _ _ _ Hm1), (outcomes_miss _ _ _ _ Hm2),
    (outcomes_miss _ _ _ _ Hm3), (outcomes_miss _ _ _ _ Hm4),
    (outcomes_miss _ _ _ _ Hm5).
  destruct (outcomes sim5 rest); reflexivity.
Qed.

(** X11: thrashing.  Five blocks of one set with pairwise distinct tags,
    accessed round robin, never hit: from a state in which the set holds the
    lines of [a0], [a1], [a2], [a3] (accessed in that order), any number of
    rounds [a4, a0, a1, a2, a3] consists of misses only. *)
Theorem round_robin_always_misses
    (sim : CacheSimulator) (a0 a1 a2 a3 a4 : Address) (n : nat) :
  index_of a0 = index_of a4 -> index_of a1 = index_of a4 ->
  index_of a2 = index_of a4 -> index_of a3 = index_of a4 ->
  NoDup [tag_of a0; tag_of a1; tag_of a2; tag_of a3; tag_of a4] ->
  sets sim !! Z.to_nat (index_of a4) =
    Some [line_of a3; line_of a2; line_of a1; line_of a0] ->
  outcomes sim (concat (replicate n [a4; a0; a1; a2; a3])) =
    Some (replicate (5 * n) Miss).
Proof.
  intros H0 H1 H2 H3 Hnd. revert sim.
  induction n as [|n IH]; intros sim Hs; [reflexivity|].
  destruct (thrash_round sim a0 a1 a2 a3 a4 H0 H1 H2 H3 Hnd Hs)
    as (sim' & Hs' & Hround).
  cbn [replicate concat app]. rewrite Hround, (IH sim' Hs').
  replace (5 * S n)%nat with (5 + 5 * n)%nat by lia. reflexivity.
Qed.

Lemma round_robin_always_misses_witness :
  outcomes (state_after [0x0; 0x2000; 0x4000; 0x6000])
           (concat (replicate 3 [0x8000; 0x0; 0x2000; 0x4000; 0x6000]))
  = Some (replicate 15 Miss).
Proof.
  apply (round_robin_always_misses
           (state_after [0x0; 0x2000; 0x4000; 0x6000])
           0x0 0x2000 0x4000 0x6000 0x8000 3).
  - reflexivity.
  - reflexivity.
  - reflexivity.
  - reflexivity.
  - apply (bool_decide_unpack _). vm_compute. reflexivity.
  - vm_compute. reflexivity.
Defined.

(** ** Occupancy *)

Lemma sum_lengths_insert (l : list Set_) (i : nat) (s s' : Set_) :
  l !! i = Some s ->
  (sum_list_with length (<[i := s']> l) + length s
   = sum_list_with length l + length s')%nat.
Proof.
  revert i. induction l as [|x l IH]; intros i Hs; [discriminate|].
  destruct i as [|i]; simpl in *.
  - injection Hs as ->. lia.
  - specialize (IH i Hs). lia.
Qed.

Lemma sum_lengths_bound (l : list Set_) :
  Forall set_ok l ->
  Z.of_nat (sum_list_with length l) <= Z.of_nat (length l) * WAYS.
Proof.
  induction 1 as [|s l (Hlen & _) _ IH]; simpl; [lia|].
  rewrite Nat2Z.inj_add. lia.
Qed.

Lemma occupancy_step (sim sim' : CacheSimulator) (a : Address) :
  accessMemory sim a = Some sim' ->
  Z.of_nat (occupancy sim') - misses sim' <= Z.of_nat (occupancy sim) - misses sim.
Proof.
  intros Hstep. unfold occupancy.
  destruct (accessMemory_inv _ _ _ Hstep)
    as (s & Hs & [(pre & post & -> & _ & (_ & _ & _ & Hm) & ->)
                 |(_ & (_ & _ & _ & Hm) & ->)]).
  - pose proof (sum_lengths_insert _ _ _ (line_of a :: pre ++ post) Hs) as Hsum.
    simpl in Hsum. rewrite !length_app in Hsum. simpl in Hsum. lia.
  - match goal with
    | |- context [<[_ := ?new]> _] =>
        pose proof (sum_lengths_insert _ _ _ new Hs) as Hsum;
        assert (Hle : (length new <= S (length s))%nat)
    end.
    { destruct (WAYS <? _); [|reflexivity].
      rewrite pop_back_length. simpl. lia. }
    lia.
Qed.

(** X12: the cache never holds more lines than it has had misses, nor more
    than [NUM_SETS * WAYS = 512], after any run on a fresh engine. *)
Theorem occupancy_bounded (t : list Address) (sim : CacheSimulator) :
  runTrace CacheSimulator_new t = Some sim ->
  Z.of_nat (occupancy sim) <= misses sim /\
  Z.of_nat (occupancy sim) <= NUM_SETS * WAYS /\
  NUM_SETS * WAYS = 512.
Proof.
  intros Hrun. split; [|split; [|reflexivity]].
  - assert (Hgen : forall t s s', runTrace s t = Some s' ->
              Z.of_nat (occupancy s') - misses s'
              <= Z.of_nat (occupancy s) - misses s).
    { clear. induction t as [|b t IH]; intros s s' Hrun; simpl in Hrun.
      - injection Hrun as <-. lia.
      - destruct (accessMemory s b) as [s1|] eqn:Hstep; simpl in Hrun;
          [|discriminate].
        pose proof (occupancy_step _ _ _ Hstep). specialize (IH _ _ Hrun). lia. }
    specialize (Hgen _ _ _ Hrun).
    assert (Hzero : occupancy CacheSimulator_new = 0%nat) by reflexivity.
    rewrite Hzero in Hgen. simpl in Hgen. lia.
  - assert (Hinv : cache_inv sim) by (apply reachable_inv; exists t; exact Hrun).
    pose proof (sum_lengths_bound _ (inv_sets _ Hinv)) as Hb.
    rewrite (inv_num_sets _ Hinv) in Hb. unfold occupancy.
    rewrite Z2Nat.id in Hb by (rewrite NUM_SETS_eq; lia). exact Hb.
Qed.

Lemma occupancy_bounded_witness :
  Z.of_nat (occupancy (state_after [0x0; 0x2000; 0x4000; 0x6000; 0x8000; 0x4]))
  <= misses (state_after [0x0; 0x2000; 0x4000; 0x6000; 0x8000; 0x4]).
Proof.
  apply (occupancy_bounded [0x0; 0x2000; 0x4000; 0x6000; 0x8000; 0x4]).
  vm_compute. reflexivity.
Defined.

(** ** The offset within a block *)

(** X13: the engine does not see the offset of an address within its block.
    Two traces whose addresses lie pairwise in the same blocks take the
    engine, from any state, to the same state, with the same outcome for
    every access. *)
Theorem offset_is_ignored (sim : CacheSimulator) (t t' : list Address) :
  Forall2 (fun a b => a / BLOCK_SIZE = b / BLOCK_SIZE) t t' ->
  runTrace sim t = runTrace sim t' /\ outcomes sim t = outcomes sim t'.
Proof.
  intros Hsame. revert sim.
  induction Hsame as [|a b t t' Hab _ IH]; intros sim; [split; reflexivity|].
  apply decode_block in Hab as [Hi Ht].
  assert (Hstep : accessMemory sim a = accessMemory sim b)
    by (unfold accessMemory; rewrite Hi, Ht; reflexivity).
  simpl. rewrite Hstep. destruct (accessMemory sim b) as [sim1|]; simpl;
    [|split; reflexivity].
  destruct (IH sim1) as [-> ->]. split; reflexivity.
Qed.

Lemma offset_is_ignored_witness :
  runTrace CacheSimulator_new [0x1000; 0x2004] =
  runTrace CacheSimulator_new [0x103F; 0x2000].
Proof.
  apply (offset_is_ignored CacheSimulator_new [0x1000; 0x2004] [0x103F; 0x2000]).
  repeat constructor.
Defined.
